(** * apihelper.js: the [APIHelper] class of [src/index.js]

    A shallow embedding of the request helper and of the part of the
    JavaScript platform it runs on, followed by the properties of the
    helper.

    - JavaScript strings are sequences of UTF-16 code units.
    - Numbers are the integers among the Numbers of JavaScript, printed
      as [Number::toString] prints a double; BigInts are integers.
    - An object is held by value, as an immutable tree, or by
      reference, as an object of the store with its own properties and
      its prototype. A variable or a property holds either. The
      objects the helper creates and the mappings of the instance are
      objects of the store, so that [Object.assign], property
      assignment and [delete] are store updates, a copy is one level
      deep and aliasing can be stated.
    - Every object is ordinary and extensible, its properties are
      writable enumerable data properties, no value is callable, and
      the built-in prototypes are as the platform provides them.
    - The Node.js transport ([http.request], [https.request], the
      request and response streams), [JSON.parse] and the conversion
      of an object held by reference to a string are the environment
      of a call. *)

From Stdlib Require Import ZArith NArith Ascii String DecimalString Lia.
From stdpp Require Import base numbers option list gmap.

Open Scope N_scope.

(** ** JavaScript strings *)

(** A string is the list of its UTF-16 code units. *)
Abbreviation jsstring := (list N).

(** An ASCII literal of the source text. *)
Definition lit (s : string) : jsstring :=
  (λ a, N_of_ascii a) <$> list_ascii_of_string s.

(** The code unit of the double quote. *)
Definition dquote : N := 34.

Definition is_high_surrogate (c : N) : bool := (0xD800 <=? c) && (c <=? 0xDBFF).
Definition is_low_surrogate (c : N) : bool := (0xDC00 <=? c) && (c <=? 0xDFFF).

(** UTF-8 encoding of one code point. *)
Definition utf8_of_code_point (cp : N) : list N :=
  if cp <? 0x80 then [cp]
  else if cp <? 0x800 then [0xC0 + cp / 64; 0x80 + cp mod 64]
  else if cp <? 0x10000 then
    [0xE0 + cp / 4096; 0x80 + (cp / 64) mod 64; 0x80 + cp mod 64]
  else
    [0xF0 + cp / 262144; 0x80 + (cp / 4096) mod 64;
     0x80 + (cp / 64) mod 64; 0x80 + cp mod 64].

(** The bytes Node.js puts on the wire for a string chunk (its default
    encoding is UTF-8): a surrogate pair is one code point, a lone
    surrogate is replaced by U+FFFD. *)
Fixpoint utf8_encode (s : jsstring) : list N :=
  match s with
  | [] => []
  | c :: s' =>
    if is_high_surrogate c then
      match s' with
      | d :: s'' =>
        if is_low_surrogate d
        then utf8_of_code_point (0x10000 + (c - 0xD800) * 1024 + (d - 0xDC00))
               ++ utf8_encode s''
        else utf8_of_code_point 0xFFFD ++ utf8_encode s'
      | [] => utf8_of_code_point 0xFFFD
      end
    else if is_low_surrogate c then utf8_of_code_point 0xFFFD ++ utf8_encode s'
    else utf8_of_code_point c ++ utf8_encode s'
  end.

(** The byte length of a string: the length of its UTF-8 encoding. *)
Definition byte_length (s : jsstring) : nat := length (utf8_encode s).

Definition join (sep : jsstring) (parts : list jsstring) : jsstring :=
  match parts with
  | [] => []
  | p :: ps => p ++ concat ((λ q, sep ++ q) <$> ps)
  end.

(** ** Numbers *)

(** The decimal digits of an integer, with its sign. *)
Definition digits (n : Z) : jsstring := lit (NilZero.string_of_int (Z.to_int n)).

Section Number.
Local Open Scope Z_scope.

(** The Number that the integer [x > 0] denotes as a numeric literal:
    [x] itself up to 53 bits, the nearest double beyond, ties to the
    even significand; [None] is [Infinity]. *)
Definition to_double (x : Z) : option Z :=
  let e := Z.log2 x - 52 in
  if e <=? 0 then Some x
  else
    let q := x / 2 ^ e in
    let r := x mod 2 ^ e in
    let half := 2 ^ (e - 1) in
    let m := if r <? half then q
             else if half <? r then q + 1
             else if Z.even q then q else q + 1 in
    if 2 ^ 1024 <=? m * 2 ^ e then None else Some (m * 2 ^ e).

(** Whether the integer [c] denotes the double [x > 0]: [c] lies
    between the midpoints to the neighbours of [x], which belong to [x]
    when its significand is even. The bounds are doubled, to stay
    among the integers. *)
Definition rounds_to (x c : Z) : bool :=
  let e := Z.log2 x - 52 in
  if e <=? 0 then c =? x
  else
    let m := x / 2 ^ e in
    let below := if m =? 2 ^ 52 then 2 ^ (e - 1) else 2 ^ e in
    let lo := 2 * x - below in
    let hi := 2 * x + 2 ^ e in
    if Z.even m then (lo <=? 2 * c) && (2 * c <=? hi)
    else (lo <? 2 * c) && (2 * c <? hi).

Definition count_digits (x : Z) : Z := Z.of_nat (length (digits x)).

(** The integer with [k] significant digits that denotes [x] and is
    nearest to it, if there is one. *)
Definition candidate (x k : Z) : option Z :=
  let p := 10 ^ (count_digits x - k) in
  let c1 := x / p * p in
  let c2 := c1 + p in
  match rounds_to x c1, rounds_to x c2 with
  | true, true =>
    if x - c1 <? c2 - x then Some c1
    else if c2 - x <? x - c1 then Some c2
    else if Z.even (c1 / p) then Some c1 else Some c2
  | true, false => Some c1
  | false, true => Some c2
  | false, false => None
  end.

(** The integer with the fewest significant digits that denotes [x],
    tried from [k] digits on. *)
Fixpoint shortest (x k : Z) (tries : nat) : Z :=
  match tries with
  | O => x
  | S tries =>
    match candidate x k with
    | Some c => c
    | None => shortest x (k + 1) tries
    end
  end.

Fixpoint strip_zeros (tries : nat) (c : Z) : Z :=
  match tries with
  | O => c
  | S tries => if (c mod 10 =? 0) && (0 <? c) then strip_zeros tries (c / 10) else c
  end.

(** [Number::toString] of a double [x > 0] with an integer value: the
    shortest digits that denote [x], followed by zeros up to 21 digits
    and in exponential notation beyond. A double needs at most 17
    significant digits and has at most 309. *)
Definition print_double (x : Z) : jsstring :=
  let c := shortest x 1 17 in
  let n := count_digits c in
  if n <=? 21 then digits c
  else
    match digits (strip_zeros 309 c) with
    | [] => []
    | [d] => [d] ++ lit "e+" ++ digits (n - 1)
    | d :: ds => [d] ++ lit "." ++ ds ++ lit "e+" ++ digits (n - 1)
    end.

(** Whether the Number of the integer [n] is finite. *)
Definition finite (n : Z) : bool :=
  bool_decide (n = 0) || bool_decide (is_Some (to_double (Z.abs n))).

Definition Number_toString (n : Z) : jsstring :=
  match n with
  | Z0 => lit "0"
  | Zpos _ =>
    match to_double n with
    | Some x => print_double x
    | None => lit "Infinity"
    end
  | Zneg _ =>
    lit "-" ++ match to_double (- n) with
               | Some x => print_double x
               | None => lit "Infinity"
               end
  end.

End Number.

(** ** Values *)

#[local] Set Warnings "-register-all".

(** [VArr] and [VObj] are arrays and plain objects held by value:
    immutable trees that nothing else refers to, with the built-in
    prototypes. The list of a [VObj] is the list of its own
    properties in the order of enumeration, each name once; a name
    [__proto__] in it is an own property, as [JSON.parse] or a
    computed key make it. [VNum n] is the Number that the literal [n]
    denotes. *)
Inductive value :=
| VUndefined
| VNull
| VBool (b : bool)
| VNum (n : Z)
| VBigInt (n : Z)
| VStr (s : jsstring)
| VArr (xs : list value)
| VObj (kvs : list (jsstring * value)).

(** What a variable or a property holds: a value, or a reference to an
    object of the store. *)
Inductive arg :=
| Imm (v : value)
| Ref (l : nat).

Coercion Imm : value >-> arg.

Definition typeof (v : value) : jsstring :=
  match v with
  | VUndefined => lit "undefined"
  | VBool _ => lit "boolean"
  | VNum _ => lit "number"
  | VBigInt _ => lit "bigint"
  | VStr _ => lit "string"
  | VNull | VArr _ | VObj _ => lit "object"
  end.

(** [a === undefined] *)
Definition is_undefined (a : arg) : bool :=
  match a with Imm VUndefined => true | _ => false end.

(** [a === s] for a string [s] *)
Definition is_string (s : jsstring) (a : arg) : bool :=
  match a with Imm (VStr t) => bool_decide (t = s) | _ => false end.

(** ToBoolean *)
Definition truthy (a : arg) : bool :=
  match a with
  | Imm VUndefined | Imm VNull => false
  | Imm (VBool b) => b
  | Imm (VNum n) | Imm (VBigInt n) => negb (n =? 0)%Z
  | Imm (VStr s) => negb (bool_decide (s = []))
  | Imm (VArr _) | Imm (VObj _) | Ref _ => true
  end.

(** [l.includes(a)] for an array [l] of strings *)
Definition includes (l : list jsstring) (a : arg) : bool :=
  match a with Imm (VStr s) => bool_decide (s ∈ l) | _ => false end.

(** ** Errors *)

Inductive error :=
| TypeError
| Thrown (e : value).

Inductive completion (A : Type) :=
| Normal (a : A)
| Throw (e : error).
Arguments Normal {A} a.
Arguments Throw {A} e.

Definition cmap {A B} (f : A → B) (c : completion A) : completion B :=
  match c with
  | Normal a => Normal (f a)
  | Throw e => Throw e
  end.

Definition cbind {A B} (c : completion A) (f : A → completion B) : completion B :=
  match c with
  | Normal a => f a
  | Throw e => Throw e
  end.

(** The results of a list of evaluations made from left to right, or
    the first exception. *)
Definition sequence {A} (cs : list (completion A)) : completion (list A) :=
  foldr (λ c rest, match c with
                   | Throw e => Throw e
                   | Normal a => cmap (cons a) rest
                   end) (Normal []) cs.

(** ** Own properties of a value *)

Definition index_key (i : nat) : jsstring :=
  lit (NilZero.string_of_uint (Nat.to_uint i)).

(** The own enumerable properties: the elements of an array and the
    code units of a string under their indices, the properties of an
    object; none for the other values. *)
Definition own_props (v : value) : gmap jsstring value :=
  match v with
  | VObj kvs => foldl (λ m kv, <[kv.1 := kv.2]> m) ∅ kvs
  | VArr xs => list_to_map (imap (λ i x, (index_key i, x)) xs)
  | VStr s => list_to_map (imap (λ i c, (index_key i, VStr [c])) s)
  | _ => ∅
  end.

(** [v.k] for a value other than [undefined] and [null], where [k] is
    one of the names the source reads ([protocol], [hostname], [port],
    [path], [method], [headers], [0] and [length]), none of which a
    built-in prototype defines: an own property, the [length] of a
    string or an array, or [undefined]. *)
Definition property (v : value) (k : jsstring) : value :=
  match own_props v !! k with
  | Some x => x
  | None =>
    if bool_decide (k = lit "length") then
      match v with
      | VStr s => VNum (Z.of_nat (length s))
      | VArr xs => VNum (Z.of_nat (length xs))
      | _ => VUndefined
      end
    else VUndefined
  end.

(** Property read [v.k] on a value: a [TypeError] on [undefined] and
    [null]. *)
Definition get_value (v : value) (k : jsstring) : completion value :=
  match v with
  | VUndefined | VNull => Throw TypeError
  | _ => Normal (property v k)
  end.

(** ** ToString *)

(** ToString, as [+] applies it to the right operand of a string. For
    an object, ToPrimitive calls [valueOf], which the built-in returns
    the object itself for, and then [toString]: the built-in of
    [Object.prototype] or, for an array, the join of its elements; an
    own property [toString] of an object is not callable, being a
    value, and makes the conversion a [TypeError]. *)
Fixpoint to_string (v : value) : completion jsstring :=
  match v with
  | VUndefined => Normal (lit "undefined")
  | VNull => Normal (lit "null")
  | VBool true => Normal (lit "true")
  | VBool false => Normal (lit "false")
  | VNum n => Normal (Number_toString n)
  | VBigInt n => Normal (digits n)
  | VStr s => Normal s
  | VArr xs =>
    cmap (join (lit ","))
         (sequence ((λ x, match x with
                          | VUndefined | VNull => Normal []
                          | _ => to_string x
                          end) <$> xs))
  | VObj kvs =>
    if bool_decide (is_Some (own_props (VObj kvs) !! lit "toString"))
    then Throw TypeError
    else Normal (lit "[object Object]")
  end.

(** ** JSON.stringify *)

Definition hex_digit (n : N) : N := if n <? 10 then 48 + n else 87 + n.

Definition unicode_escape (c : N) : jsstring :=
  lit "\u" ++ [hex_digit (c / 4096 mod 16); hex_digit (c / 256 mod 16);
               hex_digit (c / 16 mod 16); hex_digit (c mod 16)].

Fixpoint quote_units (s : jsstring) : jsstring :=
  match s with
  | [] => []
  | c :: s' =>
    if c =? 8 then lit "\b" ++ quote_units s'
    else if c =? 9 then lit "\t" ++ quote_units s'
    else if c =? 10 then lit "\n" ++ quote_units s'
    else if c =? 12 then lit "\f" ++ quote_units s'
    else if c =? 13 then lit "\r" ++ quote_units s'
    else if c <? 32 then unicode_escape c ++ quote_units s'
    else if c =? dquote then lit "\" ++ [dquote] ++ quote_units s'
    else if c =? 92 then lit "\\" ++ quote_units s'
    else if is_high_surrogate c then
      match s' with
      | d :: s'' =>
        if is_low_surrogate d then c :: d :: quote_units s''
        else unicode_escape c ++ quote_units s'
      | [] => unicode_escape c
      end
    else if is_low_surrogate c then unicode_escape c ++ quote_units s'
    else c :: quote_units s'
  end.

Definition QuoteJSONString (s : jsstring) : jsstring :=
  [dquote] ++ quote_units s ++ [dquote].

(** [None] stands for [undefined]: such a property is left out of an
    object and written [null] in an array. A Number that is not finite
    is written [null]; a BigInt is a [TypeError]. *)
Fixpoint SerializeJSONProperty (v : value) : completion (option jsstring) :=
  match v with
  | VUndefined => Normal None
  | VNull => Normal (Some (lit "null"))
  | VBool true => Normal (Some (lit "true"))
  | VBool false => Normal (Some (lit "false"))
  | VNum n => Normal (Some (if finite n then Number_toString n else lit "null"))
  | VBigInt _ => Throw TypeError
  | VStr s => Normal (Some (QuoteJSONString s))
  | VArr xs =>
    cmap (λ parts, Some (lit "[" ++ join (lit ",") (default (lit "null") <$> parts)
                         ++ lit "]"))
         (sequence (SerializeJSONProperty <$> xs))
  | VObj kvs =>
    cmap (λ parts, Some (lit "{" ++ join (lit ",") (omap id parts) ++ lit "}"))
         (sequence ((λ kv, cmap (fmap (λ t, QuoteJSONString kv.1 ++ lit ":" ++ t))
                                (SerializeJSONProperty kv.2)) <$> kvs))
  end.

Definition JSON_stringify (v : value) : completion value :=
  cmap (λ text, match text with
                | Some s => VStr s
                | None => VUndefined
                end) (SerializeJSONProperty v).

(** ** Objects and the store *)

(** The properties of an object of the store, by name. *)
Abbreviation mapping := (gmap jsstring arg).

(** The prototype of an object of the store: [Object.prototype], as
    for every object literal, or what the setter of [__proto__] has
    put in its place: [null], an object held by value or an object of
    the store. *)
Inductive prototype :=
| Object_prototype
| Null_prototype
| Tree_prototype (v : value)
| Shared_prototype (l : nat).

Record object := {
  props : mapping;
  proto : prototype
}.

(** The store: the objects held by reference; a reference is an index. *)
Abbreviation store := (list object).

(** The object of a literal [{ ... }]. *)
Definition literal (m : mapping) : object :=
  {| props := m; proto := Object_prototype |}.

(** The own enumerable properties of the source of [Object.assign]:
    none for [undefined] and [null]. *)
Definition source_props (st : store) (a : arg) : mapping :=
  match a with
  | Imm v => Imm <$> own_props v
  | Ref l => default ∅ (props <$> st !! l)
  end.

(** [new] object: stored at the next free index. *)
Definition alloc (st : store) (o : object) : store * nat :=
  (st ++ [o], length st).

(** *** The prototype chain *)

(** The walks along a prototype chain take one step for each object of
    the store on it, at most [steps]; a chain without a cycle has at
    most as many objects as the store. *)

(** Whether the chain from [p] comes to an end. *)
Fixpoint chain_ends (steps : nat) (st : store) (p : prototype) : bool :=
  match p with
  | Shared_prototype l =>
    match steps, st !! l with
    | S steps, Some o => chain_ends steps st (proto o)
    | _, _ => false
    end
  | _ => true
  end.

(** [[Get]] of [k] from [p] on, for a name [k] that no built-in
    prototype defines. *)
Fixpoint inherited (steps : nat) (st : store) (p : prototype) (k : jsstring) : arg :=
  match p with
  | Object_prototype | Null_prototype => Imm VUndefined
  | Tree_prototype v => Imm (property v k)
  | Shared_prototype l =>
    match steps, st !! l with
    | S steps, Some o =>
      match props o !! k with
      | Some a => a
      | None => inherited steps st (proto o) k
      end
    | _, _ => Imm VUndefined
    end
  end.

(** Whether [[Set]] of [__proto__] from [p] on arrives at the accessor
    of [Object.prototype]: no object before it has a property of that
    name, and the chain does not end in [null]. *)
Fixpoint reaches_setter (steps : nat) (st : store) (p : prototype) : bool :=
  match p with
  | Object_prototype => true
  | Null_prototype => false
  | Tree_prototype v => bool_decide (own_props v !! lit "__proto__" = None)
  | Shared_prototype l =>
    match steps, st !! l with
    | S steps, Some o =>
      match props o !! lit "__proto__" with
      | Some _ => false
      | None => reaches_setter steps st (proto o)
      end
    | _, _ => true
    end
  end.

(** Whether the object at [target] is on the chain from [p]. *)
Fixpoint on_chain (steps : nat) (st : store) (p : prototype) (target : nat) : bool :=
  match p with
  | Shared_prototype l =>
    bool_decide (l = target)
    || match steps, st !! l with
       | S steps, Some o => on_chain steps st (proto o) target
       | _, _ => false
       end
  | _ => false
  end.

(** The prototype that the setter of [__proto__] accepts: an object or
    [null]. *)
Definition as_prototype (a : arg) : option prototype :=
  match a with
  | Ref l => Some (Shared_prototype l)
  | Imm VNull => Some Null_prototype
  | Imm (VArr xs) => Some (Tree_prototype (VArr xs))
  | Imm (VObj kvs) => Some (Tree_prototype (VObj kvs))
  | Imm _ => None
  end.

(** *** Writing a property *)

Definition define (k : jsstring) (a : arg) (o : object) : object :=
  {| props := <[k := a]> (props o); proto := proto o |}.

Definition remove (k : jsstring) (o : object) : object :=
  {| props := delete k (props o); proto := proto o |}.

Definition with_prototype (p : prototype) (o : object) : object :=
  {| props := props o; proto := p |}.

(** [o.__proto__ = a] on the object at [l], where the setter does not
    fail. Where [[Set]] arrives at the setter, an object or [null]
    becomes the prototype and any other value is dropped; where it does
    not, [__proto__] is defined as an own property. *)
Definition write_proto (st : store) (l : nat) (a : arg) : store :=
  if reaches_setter (length st) st (Shared_prototype l) then
    match as_prototype a with
    | Some p => alter (with_prototype p) l st
    | None => st
    end
  else alter (define (lit "__proto__") a) l st.

(** [o[k] = a] on the object at [l]. Every name but [__proto__] is
    defined as an own property, the properties of the built-in
    prototypes being writable data properties. The setter of
    [__proto__] throws a [TypeError] for a prototype that has the
    object on its chain. *)
Definition put (st : store) (l : nat) (k : jsstring) (a : arg) : completion store :=
  if bool_decide (k = lit "__proto__") then
    if reaches_setter (length st) st (Shared_prototype l)
       && match as_prototype a with
          | Some p => on_chain (length st) st p l
          | None => false
          end
    then Throw TypeError
    else Normal (write_proto st l a)
  else Normal (alter (define k a) l st).

(** [Object.assign(target, source)] for a target that was created in
    the same expression, as in every call of the source: nothing
    refers to it, so that the setter of [__proto__] cannot fail. Every
    own property of the source is written to the target with [[Set]],
    the target being updated in place; the properties other than
    [__proto__] become own properties whatever the order, [__proto__]
    goes the way of [write_proto]. An [undefined] or [null] source is
    skipped. *)
Definition Object_assign (st : store) (target : nat) (source : arg) : store :=
  let m := source_props st source in
  let st := alter (λ o, {| props := delete (lit "__proto__") m ∪ props o;
                           proto := proto o |}) target st in
  match m !! lit "__proto__" with
  | Some a => write_proto st target a
  | None => st
  end.

(** *** Reading a property *)

(** Property read [a.k], for a name [k] that no built-in prototype
    defines. *)
Definition get (st : store) (a : arg) (k : jsstring) : completion arg :=
  match a with
  | Imm v => cmap Imm (get_value v k)
  | Ref l => Normal (inherited (length st) st (Shared_prototype l) k)
  end.

(** ** The transport *)

Inductive transport := HTTP | HTTPS.

(** The options object handed to [http.request] or [https.request],
    with the own properties of its [headers]. The path is a string,
    being the result of a string concatenation. *)
Record descriptor := {
  d_hostname : arg;
  d_port : arg;
  d_path : jsstring;
  d_method : arg;
  d_headers : mapping
}.

(** The calls a request makes on the transport. *)
Inductive call :=
| CRequest (t : transport) (d : descriptor)
| CWrite (chunk : value)
| CEnd.

(** What the transport reports back after the calls. *)
Inductive event :=
| ReqError (e : value)      (* 'error' on the request object *)
| Response                  (* the response callback is invoked *)
| Data (d : jsstring)       (* 'data' on the response stream *)
| StreamError (e : value)   (* 'error' on the response stream *)
| End.                      (* 'end' on the response stream *)

(** The environment of one call of [request]: what [JSON.parse] returns
    ([None] when it throws), what ToString makes of an object of the
    store ([None] when it throws a [TypeError]), which depends on
    the built-in methods its prototype chain leads to, which transport
    calls throw synchronously, and the events that follow. *)
Record environment := {
  JSON_parse : jsstring → option value;
  ToString_object : store → nat → option jsstring;
  throws : call → option value;
  events : list event
}.

(** ToString of what a variable holds. *)
Definition ToString (env : environment) (st : store) (a : arg) : completion jsstring :=
  match a with
  | Imm v => to_string v
  | Ref l =>
    match ToString_object env st l with
    | Some s => Normal s
    | None => Throw TypeError
    end
  end.

(** ** Commands: the statements of a [try] block *)

Record world := {
  heap : store;
  sent : list call
}.

Definition cmd (A : Type) : Type := world → completion A * world.

Definition ret {A} (a : A) : cmd A := λ w, (Normal a, w).

Definition bind {A B} (c : cmd A) (k : A → cmd B) : cmd B :=
  λ w, match c w with
       | (Normal a, w') => k a w'
       | (Throw e, w') => (Throw e, w')
       end.

Notation "'let*' x ':=' c 'in' k" := (bind c (λ x, k))
  (at level 10, x name, c at level 100, k at level 200).

Definition lift {A} (c : completion A) : cmd A := λ w, (c, w).

Definition read (a : arg) (k : jsstring) : cmd arg :=
  λ w, (get (heap w) a k, w).

Definition convert (env : environment) (a : arg) : cmd jsstring :=
  λ w, (ToString env (heap w) a, w).

Definition new (m : mapping) : cmd nat :=
  λ w, let '(st, l) := alloc (heap w) (literal m) in
       (Normal l, {| heap := st; sent := sent w |}).

Definition assign (target : nat) (source : arg) : cmd unit :=
  λ w, (Normal tt, {| heap := Object_assign (heap w) target source; sent := sent w |}).

Definition contents (l : nat) : cmd mapping :=
  λ w, (Normal (default ∅ (props <$> heap w !! l)), w).

(** A call on the transport is recorded, then throws if the environment
    says so. *)
Definition transport_call (env : environment) (c : call) : cmd unit :=
  λ w, let w' := {| heap := heap w; sent := sent w ++ [c] |} in
       match throws env c with
       | Some e => (Throw (Thrown e), w')
       | None => (Normal tt, w')
       end.

(** ** The promise *)

Inductive promise :=
| Pending
| Resolved (v : value)
| Rejected (e : error).

(** A promise settles once: [resolve] and [reject] on a settled promise
    do nothing. *)
Definition settle (p new : promise) : promise :=
  match p with
  | Pending => new
  | _ => p
  end.

(** The listeners of a call: the promise they settle and, once the
    response callback has run, its variable [update]. *)
Record listeners := {
  settled : promise;
  update : option value
}.

(** One event. [update += d] converts [update], which is a string
    until the response ends; an exception of the conversion leaves the
    listener, and the promise and [update] as they are. *)
Definition on_event (env : environment) (l : listeners) (ev : event) : listeners :=
  match ev, update l with
  | ReqError e, _ =>
    {| settled := settle (settled l) (Rejected (Thrown e)); update := update l |}
  | Response, _ =>
    {| settled := settled l; update := Some (VStr []) |}
  | Data d, Some u =>
    match to_string u with
    | Normal s => {| settled := settled l; update := Some (VStr (s ++ d)) |}
    | Throw _ => l
    end
  | StreamError e, Some _ =>
    {| settled := settle (settled l) (Rejected (Thrown e)); update := update l |}
  | End, Some u =>
    let u' := match cmap (JSON_parse env) (to_string u) with
              | Normal (Some v) => v
              | _ => u
              end in
    {| settled := settle (settled l) (Resolved u'); update := Some u' |}
  | _, None => l
  end.

Definition deliver (env : environment) (evs : list event) : promise :=
  settled (foldl (on_event env) {| settled := Pending; update := None |} evs).

(** What a call of [request] that returns leaves behind: the calls made
    on the transport and the promise returned, in the state it reaches
    once the events of the environment have been delivered. *)
Record outcome := {
  calls : list call;
  result : promise
}.

(** ** The class *)

Module APIHelper.

(** An instance: the references held by [this.headers] and
    [this.requestOptions]. *)
Record t := {
  headers : nat;
  requestOptions : nat
}.

Definition constructor (st : store) (requestOptions headers : arg)
  : store * t :=
  let '(st, h) := alloc st (literal ∅) in
  let st := Object_assign st h headers in
  let '(st, r) := alloc st (literal ∅) in
  let st := Object_assign st r requestOptions in
  (st, {| headers := h; requestOptions := r |}).

Definition deleteHeader (st : store) (this : t) (key : jsstring) : store :=
  alter (remove key) (headers this) st.

(** [setHeader] returns the store, or throws what the assignment
    throws. *)
Definition setHeader (st : store) (this : t) (key : jsstring) (value : arg)
  : completion store :=
  if is_string [] value || is_undefined value
  then Normal (deleteHeader st this key)
  else put st (headers this) key value.

Definition METHODS : list jsstring :=
  [lit "GET"; lit "POST"; lit "PATCH"; lit "PUT"; lit "DELETE"].

(** The default of the parameter [data = '']. *)
Definition default_data (data : value) : value :=
  if is_undefined data then VStr [] else data.

(** The callee and the first argument of the call
    [(... ? https : http).request({ ... }, ...)]: the transport chosen
    and the options object, its fields evaluated in order. Within it a
    property of [requestOptions] that the source reads more than once
    is read once: a plain property yields the same value again. *)
Definition describe (env : environment) (this : t) (requestOptions : arg) (data : value)
  : cmd (transport * descriptor) :=
  let* protocol := read requestOptions (lit "protocol") in
  let* protocol := if truthy protocol then ret protocol
                   else read (Ref (APIHelper.requestOptions this)) (lit "protocol") in
  let transport := if is_string (lit "https") protocol then HTTPS else HTTP in
  let* hostname := read requestOptions (lit "hostname") in
  let* hostname := if truthy hostname then ret hostname
                   else read (Ref (APIHelper.requestOptions this)) (lit "hostname") in
  let* port := read requestOptions (lit "port") in
  let* path := read requestOptions (lit "path") in
  let* first := read path (lit "0") in
  let* text := convert env path in
  let path := (if negb (is_string (lit "/") first) then lit "/" else []) ++ text in
  let* method := read requestOptions (lit "method") in
  let* base := if is_string (lit "GET") method then new ∅
               else let* len := lift (get_value data (lit "length")) in
                    new {[ lit "Content-Length" := Imm len ]} in
  let* _ := assign base (Ref (APIHelper.headers this)) in
  let* headers := read requestOptions (lit "headers") in
  let* _ := assign base headers in
  let* headers := contents base in
  ret (transport,
       {| d_hostname := hostname;
          d_port := port;
          d_path := path;
          d_method := if includes METHODS method then method else Imm (VStr (lit "GET"));
          d_headers := headers |}).

(** The body of the [try] block. The response callback and the
    ['error'] listener are the listeners of [on_event]. *)
Definition try_block (env : environment) (this : t)
    (requestOptions : arg) (data : value) : cmd unit :=
  let* request := describe env this requestOptions data in
  let* _ := transport_call env (CRequest request.1 request.2) in
  let* method := read requestOptions (lit "method") in
  let* _ := if negb (is_string (lit "GET") method)
            then transport_call env (CWrite data) else ret tt in
  transport_call env CEnd.

(** The body to send: a missing [data] is the empty string, and a value
    of type object is replaced by its JSON text, if it has one. *)
Definition body (data : value) : completion value :=
  let data := default_data data in
  if bool_decide (typeof data = lit "object") then JSON_stringify data else Normal data.

(** [request(requestOptions, data = '')]. An exception of
    [JSON.stringify] leaves the call, which then returns no promise.
    The executor of the promise runs at once; an exception of the
    [try] block rejects the promise, after which no event can change
    it. *)
Definition request (env : environment) (st : store) (this : t)
    (requestOptions : arg) (data : value) : store * completion outcome :=
  match body data with
  | Throw e => (st, Throw e)
  | Normal data =>
    let '(c, w) := try_block env this requestOptions data {| heap := st; sent := [] |} in
    (heap w,
     Normal {| calls := sent w;
               result := match c with
                         | Throw e => Rejected e
                         | Normal _ => deliver env (events env)
                         end |})
  end.

(** The five wrappers, each with its method [m]:
    [M(requestOptions, data = '') { return this.request(Object.assign({ 'method': m }, requestOptions), data); }] *)
Definition with_method (m : string) (env : environment) (st : store) (this : t)
    (requestOptions : arg) (data : value) : store * completion outcome :=
  let data := default_data data in
  let '(st, o) := alloc st (literal {[ lit "method" := Imm (VStr (lit m)) ]}) in
  let st := Object_assign st o requestOptions in
  request env st this (Ref o) data.

Definition GET := with_method "GET".
Definition POST := with_method "POST".
Definition PATCH := with_method "PATCH".
Definition PUT := with_method "PUT".
Definition DELETE := with_method "DELETE".

End APIHelper.

(** * Notions used in the statements *)

(** ** Arguments *)

(** Every argument but [undefined] and [null] can be read. *)
Definition readable (a : arg) : Prop :=
  match a with
  | Imm VUndefined | Imm VNull => False
  | _ => True
  end.

(** The value of [a.k] where it can be read. *)
Definition field (st : store) (a : arg) (k : jsstring) : arg :=
  match get st a k with
  | Normal v => v
  | Throw _ => Imm VUndefined
  end.

(** An argument is valid in a store when it is held by value or refers
    to an object of that store whose prototype chain comes to an end
    in that store. *)
Definition valid (st : store) (a : arg) : Prop :=
  match a with
  | Imm _ => True
  | Ref l => chain_ends (length st) st (Shared_prototype l) = true
  end.

(** The property is held by value: it is no reference to an object of
    the store. *)
Definition by_value (a : arg) : Prop :=
  match a with
  | Imm _ => True
  | Ref _ => False
  end.

(** The object shares nothing: its properties are held by value and so
    is its prototype. *)
Definition unshared (o : object) : Prop :=
  (∀ k a, props o !! k = Some a → by_value a) ∧
  (∀ l, proto o ≠ Shared_prototype l).

(** The target of [Object.assign(target, source)] after the call, for
    a target [o] that was created last in [st]. *)
Definition assigned (st : store) (o : object) (source : arg) : object :=
  default o (Object_assign (st ++ [o]) (length st) source !! length st).

(** The object [Object.assign({}, source)] makes: the own properties
    of the source but [__proto__], whose value, where it is an object
    or [null], is the prototype. *)
Definition copy (st : store) (source : arg) : object :=
  {| props := delete (lit "__proto__") (source_props st source);
     proto := match source_props st source !! lit "__proto__" with
              | Some a => default Object_prototype (as_prototype a)
              | None => Object_prototype
              end |}.

(** What [setHeader(key, value)] does to the header object where it
    deletes, or defines a property: for a value that is [''] or
    [undefined], and for every name but [__proto__]. *)
Definition header_update (key : jsstring) (value : arg) : object → object :=
  if is_string [] value || is_undefined value then remove key else define key value.

(** The path begins with [/]. *)
Definition begins_with_slash (path : jsstring) : Prop :=
  ∃ rest, path = lit "/" ++ rest.

(** ** The request as a function of the arguments *)

(** What [describe] computes, written as functions of the store and
    the arguments: the transport, ... *)
Definition chosen_transport (st : store) (this : APIHelper.t) (ro : arg) : transport :=
  let protocol := field st ro (lit "protocol") in
  let protocol := if truthy protocol then protocol
                  else field st (Ref (APIHelper.requestOptions this)) (lit "protocol") in
  if is_string (lit "https") protocol then HTTPS else HTTP.

(** ... the base header mapping, ... *)
Definition base_headers (method : arg) (len : value) : mapping :=
  if is_string (lit "GET") method then ∅ else {[ lit "Content-Length" := Imm len ]}.

(** ... the header object after the two calls of [Object.assign], the
    base being the object allocated last, ... *)
Definition merged (st : store) (this : APIHelper.t) (ro : arg) (base : mapping)
  : object :=
  let layer := assigned st (literal base) (Ref (APIHelper.headers this)) in
  assigned st layer (field (st ++ [layer]) ro (lit "headers")).

(** ... and the options object; [first] is [path[0]], [text] the path
    as a string and [len] is [data.length]. *)
Definition described (st : store) (this : APIHelper.t) (ro : arg)
    (first : arg) (text : jsstring) (len : value) : descriptor :=
  let hostname := field st ro (lit "hostname") in
  let method := field st ro (lit "method") in
  {| d_hostname := if truthy hostname then hostname
                   else field st (Ref (APIHelper.requestOptions this)) (lit "hostname");
     d_port := field st ro (lit "port");
     d_path := (if negb (is_string (lit "/") first) then lit "/" else []) ++ text;
     d_method := if includes APIHelper.METHODS method then method
                 else Imm (VStr (lit "GET"));
     d_headers := props (merged st this ro (base_headers method len)) |}.

(** The calls [request] sets out to make once the options object is
    built. *)
Definition planned (t : transport) (d : descriptor) (method : arg) (body : value)
  : list call :=
  CRequest t d :: (if is_string (lit "GET") method then [] else [CWrite body]) ++ [CEnd].

(** The calls of a list that are made, in order, up to the first that
    throws. *)
Fixpoint attempt (env : environment) (cs : list call) : list call * completion unit :=
  match cs with
  | [] => ([], Normal tt)
  | c :: cs' =>
    match throws env c with
    | Some e => ([c], Throw (Thrown e))
    | None => let '(made, r) := attempt env cs' in (c :: made, r)
    end
  end.

(** The promise after a [try] block that completed with [c]. *)
Definition settlement (env : environment) (c : completion unit) : promise :=
  match c with
  | Throw e => Rejected e
  | Normal _ => deliver env (events env)
  end.

(** The resolved protocol in the words of the specification: the
    protocol of the call if present, else the instance default. It is
    compared below with what the code resolves,
    [requestOptions.protocol || this.requestOptions.protocol]. *)
Definition protocol_if_present (p q : arg) : arg :=
  if is_undefined p then q else p.

(** The method of the request handed to the transport. *)
Definition method_sent (o : outcome) : option arg :=
  match calls o with
  | CRequest _ d :: _ => Some (d_method d)
  | _ => None
  end.

(** The five wrappers, by name. *)
Definition wrappers
  : list (string * (environment → store → APIHelper.t → arg → value
                    → store * completion outcome)) :=
  [("GET"%string, APIHelper.GET); ("POST"%string, APIHelper.POST);
   ("PATCH"%string, APIHelper.PATCH); ("PUT"%string, APIHelper.PUT);
   ("DELETE"%string, APIHelper.DELETE)].

(** The own properties of the objects of a store. *)
Definition own_properties (st : store) : list mapping := props <$> st.

(** ** Examples *)

(** A platform whose [JSON.parse] rejects every text and whose objects
    have the built-in [toString] of [Object.prototype], with a
    transport that accepts every call and reports the given events. *)
Definition reporting (evs : list event) : environment :=
  {| JSON_parse := λ _, None;
     ToString_object := λ _ _, Some (lit "[object Object]");
     throws := λ _, None;
     events := evs |}.

(** A transport that accepts every call and reports nothing. *)
Definition quiet : environment := reporting [].

(** The text [{"a":1}]. *)
Definition json_text : jsstring :=
  lit "{" ++ [dquote] ++ lit "a" ++ [dquote] ++ lit ":1}".

(** A transport that accepts every call and answers with the given
    chunks, on a platform whose [JSON.parse] accepts [json_text]
    alone. *)
Definition answering (chunks : list jsstring) : environment :=
  {| JSON_parse := λ s, if bool_decide (s = json_text)
                        then Some (VObj [(lit "a", VNum 1)]) else None;
     ToString_object := λ _ _, Some (lit "[object Object]");
     throws := λ _, None;
     events := Response :: (Data <$> chunks) ++ [End] |}.

(** The environment with further events after its own. *)
Definition more_events (env : environment) (more : list event) : environment :=
  {| JSON_parse := JSON_parse env;
     ToString_object := ToString_object env;
     throws := throws env;
     events := events env ++ more |}.


(** [new APIHelper()] in the empty store. *)
Definition bare : store * APIHelper.t :=
  APIHelper.constructor [] (Imm VUndefined) (Imm VUndefined).

(** [new APIHelper({ protocol: 'https', hostname: 'api.test' },
    { 'Content-Length': '1', 'Accept': 'a' })] in the empty store. *)
Definition configured : store * APIHelper.t :=
  APIHelper.constructor []
    (Imm (VObj [(lit "protocol", VStr (lit "https"));
                (lit "hostname", VStr (lit "api.test"))]))
    (Imm (VObj [(lit "Content-Length", VStr (lit "1"));
                (lit "Accept", VStr (lit "a"))])).

(** The header mapping of [configured]. *)
Definition configured_headers : object :=
  literal (Imm <$> own_props (VObj [(lit "Content-Length", VStr (lit "1"));
                                    (lit "Accept", VStr (lit "a"))])).

(** A store with two mappings of a caller: headers at 0, options at 1. *)
Definition caller_store : store :=
  [literal (Imm <$> own_props (VObj [(lit "Accept", VStr (lit "a"))]));
   literal (Imm <$> own_props (VObj [(lit "protocol", VStr (lit "https"))]))].

(** A store of a caller with an object at 0 that names a host, and at
    1 an options object that has it for the value of [__proto__], as
    [JSON.parse] or a computed key make it. *)
Definition linked_store : store :=
  [literal {[ lit "hostname" := Imm (VStr (lit "a.test")) ]};
   literal {[ lit "__proto__" := Ref 0 ]}].

(** A store of a caller with an object at 0 and, at 1, a header
    mapping that has it for the value of [Accept]. *)
Definition nested_store : store :=
  [literal {[ lit "0" := Imm (VStr (lit "a")) ]};
   literal {[ lit "Accept" := Ref 0 ]}].

(** * Properties *)

(** ** Induction on values *)

Section value_induction.
Variable P : value → Prop.
Hypothesis Hundefined : P VUndefined.
Hypothesis Hnull : P VNull.
Hypothesis Hbool : ∀ b, P (VBool b).
Hypothesis Hnum : ∀ n, P (VNum n).
Hypothesis Hbigint : ∀ n, P (VBigInt n).
Hypothesis Hstr : ∀ s, P (VStr s).
Hypothesis Harr : ∀ xs, Forall P xs → P (VArr xs).
Hypothesis Hobj : ∀ kvs, Forall (λ kv, P kv.2) kvs → P (VObj kvs).

Fixpoint value_induction (v : value) : P v :=
  match v with
  | VUndefined => Hundefined
  | VNull => Hnull
  | VBool b => Hbool b
  | VNum n => Hnum n
  | VBigInt n => Hbigint n
  | VStr s => Hstr s
  | VArr xs =>
    Harr xs ((fix go (xs : list value) : Forall P xs :=
                match xs with
                | [] => Forall_nil_2 P
                | x :: xs => Forall_cons_2 P x xs (value_induction x) (go xs)
                end) xs)
  | VObj kvs =>
    Hobj kvs ((fix go (kvs : list (jsstring * value)) : Forall (λ kv, P kv.2) kvs :=
                 match kvs with
                 | [] => Forall_nil_2 _
                 | kv :: kvs => Forall_cons_2 _ kv kvs (value_induction kv.2) (go kvs)
                 end) kvs)
  end.
End value_induction.

Lemma sequence_Throw {A} (cs : list (completion A)) e :
  sequence cs = Throw e → ∃ c, c ∈ cs ∧ c = Throw e.
Proof.
  induction cs as [|c cs IH]; simpl; [done|].
  destruct c as [a|e'].
  - destruct (sequence cs) as [l|e'']; simpl; [done|].
    intros [= ->]. destruct IH as (c & Hc & ->); [done|].
    exists (Throw e). split; [by apply list_elem_of_further|done].
  - intros [= ->]. exists (Throw e). split; [apply list_elem_of_here|done].
Qed.

(** The exceptions of the conversions are [TypeError]s. *)
Lemma to_string_Throw v e : to_string v = Throw e → e = TypeError.
Proof.
  revert e. induction v as [| |b|n|n|s|xs IH|kvs _] using value_induction;
    intros e; simpl; try done.
  - by destruct b.
  - destruct (sequence _) as [l|e'] eqn:Hseq; simpl; [done|]. intros [= ->].
    apply sequence_Throw in Hseq as (c & Hc & ->).
    apply list_elem_of_fmap in Hc as (x & Hx & Hin).
    rewrite Forall_forall in IH. specialize (IH x Hin e).
    destruct x; try done; by apply IH.
  - case_bool_decide; congruence.
Qed.

Lemma ToString_Throw env st a e : ToString env st a = Throw e → e = TypeError.
Proof.
  destruct a as [v|l]; simpl; [apply to_string_Throw|].
  destruct (ToString_object env st l); congruence.
Qed.

(** ** Reading the arguments *)

Lemma get_field st a k : readable a → get st a k = Normal (field st a k).
Proof.
  unfold field. destruct a as [v|l]; [|done].
  destruct v; simpl; done.
Qed.

Lemma get_unreadable st a k : ¬ readable a → get st a k = Throw TypeError.
Proof.
  destruct a as [v|l]; [|simpl; tauto].
  destruct v; simpl; tauto.
Qed.

Lemma get_Normal_readable st a k v : get st a k = Normal v → readable a.
Proof.
  destruct a as [u|l]; [|done]. destruct u; simpl; done.
Qed.

Lemma get_Normal_field st a k v : get st a k = Normal v → field st a k = v.
Proof. unfold field. by intros ->. Qed.

Lemma get_Throw st a k e : get st a k = Throw e → e = TypeError.
Proof.
  destruct a as [v|l]; [|done]. destruct v; simpl; congruence.
Qed.

#[local] Instance readable_dec a : Decision (readable a).
Proof. destruct a as [v|l]; [destruct v|]; simpl; apply _. Defined.

Lemma readable_defined a : a ≠ Imm VUndefined → a ≠ Imm VNull → readable a.
Proof. destruct a as [v|l]; [destruct v|]; simpl; done. Qed.

(** ** The prototype chain in a store that grows *)

Lemma chain_ends_lookup n st l :
  chain_ends n st (Shared_prototype l) = true → (l < length st)%nat.
Proof.
  destruct n; simpl; [done|].
  destruct (st !! l) eqn:Hl; [|done]. intros _. by eapply lookup_lt_Some.
Qed.

Lemma valid_lookup st l : valid st (Ref l) → (l < length st)%nat.
Proof. apply (chain_ends_lookup (length st)). Qed.

Lemma inherited_alloc n m st ext p k :
  chain_ends n st p = true → (n ≤ m)%nat →
  inherited m (st ++ ext) p k = inherited n st p k.
Proof.
  revert m p. induction n as [|n IH]; intros m p Hends Hle.
  - destruct p; simpl in Hends; try done; by destruct m.
  - destruct p as [| |v|l]; try (by destruct m).
    simpl in Hends. destruct (st !! l) as [o|] eqn:Hl; [|done].
    destruct m as [|m]; [lia|]. simpl.
    rewrite lookup_app_l, Hl by (by eapply lookup_lt_Some).
    destruct (props o !! k); [done|]. apply IH; [done|lia].
Qed.

Lemma chain_ends_alloc n m st ext p :
  chain_ends n st p = true → (n ≤ m)%nat → chain_ends m (st ++ ext) p = true.
Proof.
  revert m p. induction n as [|n IH]; intros m p Hends Hle.
  - destruct p; simpl in Hends; try done; by destruct m.
  - destruct p as [| |v|l]; try (by destruct m).
    simpl in Hends. destruct (st !! l) as [o|] eqn:Hl; [|done].
    destruct m as [|m]; [lia|]. simpl.
    rewrite lookup_app_l, Hl by (by eapply lookup_lt_Some).
    apply IH; [done|lia].
Qed.

Lemma valid_alloc st ext a : valid st a → valid (st ++ ext) a.
Proof.
  destruct a as [v|l]; [done|]. unfold valid. intros Hl.
  apply (chain_ends_alloc (length st)); [done|]. rewrite length_app. lia.
Qed.

Lemma get_alloc st ext a k : valid st a → get (st ++ ext) a k = get st a k.
Proof.
  destruct a as [v|l]; [done|]. unfold valid, get. intros Hl. f_equal.
  apply (inherited_alloc (length st)); [done|]. rewrite length_app. lia.
Qed.

Lemma field_alloc st ext a k : valid st a → field (st ++ ext) a k = field st a k.
Proof. intros Ha. unfold field. by rewrite get_alloc. Qed.

Lemma source_props_alloc st ext a :
  valid st a → source_props (st ++ ext) a = source_props st a.
Proof.
  destruct a as [v|l]; [done|]. intros Hl%valid_lookup. simpl.
  by rewrite lookup_app_l.
Qed.

Lemma alter_fresh {A} (f : A → A) (st : list A) o :
  alter f (length st) (st ++ [o]) = st ++ [f o].
Proof.
  replace (length st) with (length st + 0)%nat at 1 by lia.
  by rewrite alter_app_r.
Qed.

Lemma lookup_fresh {A} (st : list A) o : (st ++ [o]) !! length st = Some o.
Proof. by apply list_lookup_middle. Qed.

(** A property of the object created last is read from that object. *)
Lemma field_fresh st o k a :
  props o !! k = Some a → field (st ++ [o]) (Ref (length st)) k = a.
Proof.
  intros Hk. unfold field. simpl. rewrite length_app. simpl.
  replace (length st + 1)%nat with (S (length st)) by lia. simpl.
  by rewrite lookup_fresh, Hk.
Qed.

(** ** [Object.assign] on the object created last *)

Lemma write_proto_fresh st o a :
  ∃ o', write_proto (st ++ [o]) (length st) a = st ++ [o'] ∧
        ∀ k, k ≠ lit "__proto__" → props o' !! k = props o !! k.
Proof.
  unfold write_proto.
  destruct (reaches_setter _ _ _).
  - destruct (as_prototype a) as [p|].
    + rewrite alter_fresh. by eexists.
    + by eexists.
  - rewrite alter_fresh. eexists. split; [done|].
    intros k Hk. simpl. by rewrite lookup_insert_ne.
Qed.

Lemma Object_assign_fresh st o source :
  Object_assign (st ++ [o]) (length st) source = st ++ [assigned st o source].
Proof.
  unfold assigned, Object_assign. rewrite alter_fresh.
  destruct (source_props _ _ !! lit "__proto__") as [a|].
  - destruct (write_proto_fresh st
                {| props := delete (lit "__proto__") (source_props (st ++ [o]) source)
                            ∪ props o;
                   proto := proto o |} a) as (o' & -> & _).
    by rewrite lookup_fresh.
  - by rewrite lookup_fresh.
Qed.

(** Every property but [__proto__] is the one of the source, or else
    the one the target had. *)
Lemma assigned_lookup st o source k :
  k ≠ lit "__proto__" →
  props (assigned st o source) !! k
  = match source_props (st ++ [o]) source !! k with
    | Some a => Some a
    | None => props o !! k
    end.
Proof.
  intros Hk. unfold assigned, Object_assign. rewrite alter_fresh.
  assert (∀ o', (∀ k, k ≠ lit "__proto__" → props o' !! k
                  = (delete (lit "__proto__") (source_props (st ++ [o]) source)
                     ∪ props o) !! k) →
                props o' !! k
                = match source_props (st ++ [o]) source !! k with
                  | Some a => Some a
                  | None => props o !! k
                  end) as Hcopy.
  { intros o' ->; [|done]. rewrite lookup_union, lookup_delete_ne by done.
    by destruct (source_props _ _ !! k), (props o !! k). }
  destruct (source_props _ _ !! lit "__proto__") as [a|].
  - destruct (write_proto_fresh st
                {| props := delete (lit "__proto__") (source_props (st ++ [o]) source)
                            ∪ props o;
                   proto := proto o |} a) as (o' & -> & Ho').
    rewrite lookup_fresh. simpl. apply Hcopy. intros k' Hk'. by rewrite Ho'.
  - rewrite lookup_fresh.
    exact (Hcopy {| props := delete (lit "__proto__") (source_props (st ++ [o]) source)
                             ∪ props o;
                    proto := proto o |} (λ _ _, eq_refl)).
Qed.

(** An object literal has the setter of [__proto__] on its chain: the
    name is never defined on a copy made into it. *)
Lemma assigned_literal st m source :
  m !! lit "__proto__" = None →
  let own := source_props (st ++ [literal m]) source in
  assigned st (literal m) source
  = {| props := delete (lit "__proto__") own ∪ m;
       proto := match own !! lit "__proto__" with
                | Some a => default Object_prototype (as_prototype a)
                | None => Object_prototype
                end |}.
Proof.
  intros Hm own. unfold assigned, Object_assign. rewrite alter_fresh. fold own.
  destruct (own !! lit "__proto__") as [a|] eqn:Ha; [|by rewrite lookup_fresh].
  unfold write_proto.
  replace (reaches_setter _ _ _) with true.
  - destruct (as_prototype a); [rewrite alter_fresh|]; by rewrite lookup_fresh.
  - rewrite length_app. simpl.
    replace (length st + 1)%nat with (S (length st)) by lia. simpl.
    rewrite lookup_fresh. simpl.
    rewrite lookup_union, lookup_delete_eq, Hm. simpl.
    by destruct (length st).
Qed.

(** ** The body *)

Lemma index_key_not_length i : index_key i ≠ lit "length".
Proof. unfold index_key. by destruct (Nat.to_uint i). Qed.

Lemma string_length s :
  get_value (VStr s) (lit "length") = Normal (VNum (Z.of_nat (length s))).
Proof.
  unfold get_value, property. f_equal.
  replace (own_props (VStr s) !! lit "length") with (@None value); [done|].
  symmetry. apply not_elem_of_list_to_map_1.
  rewrite list_elem_of_fmap. intros ([k v] & Hk & Hin). simpl in Hk.
  apply elem_of_lookup_imap in Hin as (i & c & [= -> ->] & _).
  by apply (index_key_not_length i).
Qed.

(** The JSON text of a value of type object, where it has one. *)
Lemma stringify_object data chunk :
  typeof data = lit "object" →
  JSON_stringify data = Normal chunk →
  ∃ text, chunk = VStr text.
Proof.
  unfold JSON_stringify. destruct data as [| |b|n|n|s|xs|kvs]; try discriminate;
    simpl; intros _.
  - intros [= <-]. eauto.
  - destruct (sequence _); simpl; [|done]. intros [= <-]. eauto.
  - destruct (sequence _); simpl; [|done]. intros [= <-]. eauto.
Qed.

Lemma body_object data chunk :
  typeof data = lit "object" →
  APIHelper.body data = Normal chunk →
  JSON_stringify data = Normal chunk ∧ ∃ text, chunk = VStr text.
Proof.
  intros Hobject. unfold APIHelper.body.
  replace (APIHelper.default_data data) with data by (by destruct data).
  rewrite bool_decide_eq_true_2 by done.
  intros Hchunk. split; [done|]. by eapply stringify_object.
Qed.

(** The body has a [length] to read. *)
Lemma body_length data chunk :
  APIHelper.body data = Normal chunk →
  ∃ len, get_value chunk (lit "length") = Normal len.
Proof.
  destruct (decide (typeof data = lit "object")) as [Hobject|Hother].
  - intros Hbody. destruct (body_object data chunk Hobject Hbody) as (_ & text & ->).
    eauto.
  - unfold APIHelper.body.
    destruct data as [| |b|n|n|s|xs|kvs]; simpl; try done; intros [= <-]; eauto.
Qed.

(** The UTF-8 encoding of a string of ASCII characters has one byte for
    each code unit. *)
Lemma byte_length_ascii s : Forall (λ c, c < 128) s → byte_length s = length s.
Proof.
  unfold byte_length. induction 1 as [|c s Hc _ IH]; [done|].
  cbn [utf8_encode].
  replace (is_high_surrogate c) with false
    by (symmetry; apply andb_false_intro1, N.leb_gt; lia).
  replace (is_low_surrogate c) with false
    by (symmetry; apply andb_false_intro1, N.leb_gt; lia).
  unfold utf8_of_code_point.
  replace (c <? 128) with true by (symmetry; apply N.ltb_lt; lia).
  simpl. by rewrite IH.
Qed.

Lemma utf8_of_code_point_length cp : (1 ≤ length (utf8_of_code_point cp))%nat.
Proof.
  unfold utf8_of_code_point.
  destruct (cp <? 128), (cp <? 2048), (cp <? 65536); simpl; lia.
Qed.

Lemma utf8_of_pair_length cp : 0x10000 ≤ cp → length (utf8_of_code_point cp) = 4%nat.
Proof.
  intros Hcp. unfold utf8_of_code_point.
  replace (cp <? 128) with false by (symmetry; apply N.ltb_ge; lia).
  replace (cp <? 2048) with false by (symmetry; apply N.ltb_ge; lia).
  by replace (cp <? 65536) with false by (symmetry; apply N.ltb_ge; lia).
Qed.

(** A string has at least as many bytes in UTF-8 as it has code
    units. *)
Lemma length_le_byte_length s : (length s ≤ byte_length s)%nat.
Proof.
  unfold byte_length.
  cut (∀ n s, (length s ≤ n)%nat → (length s ≤ length (utf8_encode s))%nat);
    [intros H; by apply (H (length s))|].
  clear s. induction n as [|n IH]; intros [|c s] Hlen; simpl in Hlen;
    [simpl; lia|lia|simpl; lia|].
  pose proof (IH s ltac:(lia)) as Hs.
  cbn [utf8_encode].
  destruct (is_high_surrogate c).
  - destruct s as [|d s].
    + pose proof (utf8_of_code_point_length 0xFFFD). simpl in *. lia.
    + destruct (is_low_surrogate d).
      * pose proof (IH s ltac:(simpl in Hlen; lia)).
        rewrite length_app, utf8_of_pair_length by lia. simpl. lia.
      * set (e := utf8_encode (d :: s)) in *.
        rewrite length_app. simpl in *. lia.
  - pose proof (utf8_of_code_point_length c).
    set (e := utf8_encode s) in *. set (p := utf8_of_code_point c) in *.
    destruct (is_low_surrogate c); rewrite length_app; simpl in *; lia.
Qed.

(** ** Running the [try] block *)

Lemma bind_step {A B} (c : cmd A) (k : A → cmd B) w a w' :
  c w = (Normal a, w') → bind c k w = k a w'.
Proof. unfold bind. by intros ->. Qed.

Lemma bind_throw {A B} (c : cmd A) (k : A → cmd B) w e w' :
  c w = (Throw e, w') → bind c k w = (Throw e, w').
Proof. unfold bind. by intros ->. Qed.

Lemma read_field a k w :
  readable a → read a k w = (Normal (field (heap w) a k), w).
Proof. intros Ha. unfold read. by rewrite get_field. Qed.

Lemma read_or_default (v : arg) l k w :
  (if truthy v then ret v else read (Ref l) k) w
  = (Normal (if truthy v then v else field (heap w) (Ref l) k), w).
Proof. by destruct (truthy v). Qed.

Lemma new_base method data len w :
  get_value data (lit "length") = Normal len →
  (if is_string (lit "GET") method then new ∅
   else let* len := lift (get_value data (lit "length")) in
        new {[ lit "Content-Length" := Imm len ]}) w
  = (Normal (length (heap w)),
     {| heap := heap w ++ [literal (base_headers method len)]; sent := sent w |}).
Proof.
  intros Hlen. unfold base_headers.
  destruct (is_string (lit "GET") method); [done|].
  unfold bind, lift. by rewrite Hlen.
Qed.

Ltac step tac := erewrite bind_step by tac.

Lemma describe_runs env this ro data w first text len :
  readable ro →
  get (heap w) (field (heap w) ro (lit "path")) (lit "0") = Normal first →
  ToString env (heap w) (field (heap w) ro (lit "path")) = Normal text →
  get_value data (lit "length") = Normal len →
  APIHelper.describe env this ro data w =
    (Normal (chosen_transport (heap w) this ro,
             described (heap w) this ro first text len),
     {| heap := heap w ++ [merged (heap w) this ro
                             (base_headers (field (heap w) ro (lit "method")) len)];
        sent := sent w |}).
Proof.
  intros Hro Hfirst Htext Hlen.
  unfold APIHelper.describe.
  step ltac:(by apply read_field).            (* protocol *)
  step ltac:(apply read_or_default).
  step ltac:(by apply read_field).            (* hostname *)
  step ltac:(apply read_or_default).
  step ltac:(by apply read_field).            (* port *)
  step ltac:(by apply read_field).            (* path *)
  step ltac:(unfold read; by rewrite Hfirst).
  step ltac:(unfold convert; by rewrite Htext).
  step ltac:(by apply read_field).            (* method *)
  step ltac:(by apply new_base).
  step ltac:(reflexivity).                    (* Object.assign *)
  step ltac:(by apply read_field).            (* headers *)
  step ltac:(reflexivity).                    (* Object.assign *)
  step ltac:(reflexivity).
  unfold ret. cbn [heap sent].
  rewrite !Object_assign_fresh, lookup_fresh.
  reflexivity.
Qed.

Lemma describe_unreadable env this ro data w :
  ¬ readable ro → APIHelper.describe env this ro data w = (Throw TypeError, w).
Proof.
  intros Hro. unfold APIHelper.describe.
  apply bind_throw. unfold read. by rewrite get_unreadable.
Qed.

Lemma describe_no_path env this ro data w e :
  readable ro →
  get (heap w) (field (heap w) ro (lit "path")) (lit "0") = Throw e →
  APIHelper.describe env this ro data w = (Throw e, w).
Proof.
  intros Hro Hfirst. unfold APIHelper.describe.
  step ltac:(by apply read_field).
  step ltac:(apply read_or_default).
  step ltac:(by apply read_field).
  step ltac:(apply read_or_default).
  step ltac:(by apply read_field).
  step ltac:(by apply read_field).
  apply bind_throw. unfold read. by rewrite Hfirst.
Qed.

Lemma describe_no_text env this ro data w first e :
  readable ro →
  get (heap w) (field (heap w) ro (lit "path")) (lit "0") = Normal first →
  ToString env (heap w) (field (heap w) ro (lit "path")) = Throw e →
  APIHelper.describe env this ro data w = (Throw e, w).
Proof.
  intros Hro Hfirst Htext. unfold APIHelper.describe.
  step ltac:(by apply read_field).
  step ltac:(apply read_or_default).
  step ltac:(by apply read_field).
  step ltac:(apply read_or_default).
  step ltac:(by apply read_field).
  step ltac:(by apply read_field).
  step ltac:(unfold read; by rewrite Hfirst).
  apply bind_throw. unfold convert. by rewrite Htext.
Qed.

Lemma attempt_accepted env cs :
  (∀ c, throws env c = None) → attempt env cs = (cs, Normal tt).
Proof.
  intros Hq. induction cs as [|c cs IH]; simpl; [done|].
  by rewrite Hq, IH.
Qed.

Lemma attempt_made env cs c : c ∈ (attempt env cs).1 → c ∈ cs.
Proof.
  revert c. induction cs as [|c' cs IH]; simpl; intros c; [done|].
  destruct (throws env c').
  - simpl. rewrite list_elem_of_singleton. intros ->. left.
  - destruct (attempt env cs) as [made r]. simpl in *.
    rewrite !elem_of_cons. intros [->|Hc]; [by left|right; by apply IH].
Qed.

Lemma attempt_first env c cs : ∃ made, (attempt env (c :: cs)).1 = c :: made.
Proof.
  simpl. destruct (throws env c); [by eexists|].
  destruct (attempt env cs). by eexists.
Qed.

Lemma attempt_throws env cs e :
  (attempt env cs).2 = Throw e → ∃ c v, throws env c = Some v ∧ e = Thrown v.
Proof.
  induction cs as [|c cs IH]; simpl; [done|].
  destruct (throws env c) as [v|] eqn:Hc.
  - simpl. intros [= <-]. eauto.
  - destruct (attempt env cs). simpl in *. done.
Qed.


Lemma attempt_prefix env cs : (attempt env cs).1 `prefix_of` cs.
Proof.
  induction cs as [|c cs IH]; simpl; [done|].
  destruct (throws env c).
  - simpl. by apply prefix_cons, prefix_nil.
  - destruct (attempt env cs) as [made r]. simpl in *. by apply prefix_cons.
Qed.

(** ** The outcomes of [request] *)

(** An exception of [JSON.stringify] leaves the call. *)
Lemma request_throws env st this ro data e :
  APIHelper.body data = Throw e →
  APIHelper.request env st this ro data = (st, Throw e).
Proof. unfold APIHelper.request. by intros ->. Qed.

Lemma request_issued env st this ro data chunk first text len :
  APIHelper.body data = Normal chunk →
  readable ro →
  get st (field st ro (lit "path")) (lit "0") = Normal first →
  ToString env st (field st ro (lit "path")) = Normal text →
  get_value chunk (lit "length") = Normal len →
  let d := described st this ro first text len in
  let st' := st ++ [merged st this ro (base_headers (field st ro (lit "method")) len)] in
  let run := attempt env (planned (chosen_transport st this ro) d
                                  (field st' ro (lit "method")) chunk) in
  APIHelper.request env st this ro data
  = (st', Normal {| calls := run.1; result := settlement env run.2 |}).
Proof.
  intros Hbody Hro Hfirst Htext Hlen d st' run. subst run.
  unfold APIHelper.request, APIHelper.try_block. rewrite Hbody.
  step ltac:(by eapply (describe_runs _ _ _ _ {| heap := st; sent := [] |})).
  cbn [heap sent fst snd]. fold d. fold st'.
  unfold planned, bind, transport_call, read. cbn [heap sent attempt].
  destruct (throws env (CRequest _ d)); [done|].
  cbn [heap sent]. rewrite (get_field st' ro) by done.
  destruct (is_string (lit "GET") (field st' ro (lit "method"))); cbn.
  - destruct (throws env CEnd); done.
  - destruct (throws env (CWrite _)); [done|].
    destruct (throws env CEnd); done.
Qed.

Lemma request_unreadable env st this ro data chunk :
  APIHelper.body data = Normal chunk →
  ¬ readable ro →
  APIHelper.request env st this ro data
  = (st, Normal {| calls := []; result := Rejected TypeError |}).
Proof.
  intros Hbody Hro. unfold APIHelper.request, APIHelper.try_block. rewrite Hbody.
  erewrite bind_throw by (by apply describe_unreadable). done.
Qed.

Lemma request_no_path env st this ro data chunk e :
  APIHelper.body data = Normal chunk →
  readable ro →
  get st (field st ro (lit "path")) (lit "0") = Throw e →
  APIHelper.request env st this ro data
  = (st, Normal {| calls := []; result := Rejected TypeError |}).
Proof.
  intros Hbody Hro Hfirst. unfold APIHelper.request, APIHelper.try_block.
  rewrite Hbody. erewrite bind_throw by (by apply describe_no_path).
  by rewrite (get_Throw _ _ _ _ Hfirst).
Qed.

Lemma request_no_text env st this ro data chunk first e :
  APIHelper.body data = Normal chunk →
  readable ro →
  get st (field st ro (lit "path")) (lit "0") = Normal first →
  ToString env st (field st ro (lit "path")) = Throw e →
  APIHelper.request env st this ro data
  = (st, Normal {| calls := []; result := Rejected TypeError |}).
Proof.
  intros Hbody Hro Hfirst Htext. unfold APIHelper.request, APIHelper.try_block.
  rewrite Hbody. erewrite bind_throw by (by eapply describe_no_text).
  by rewrite (ToString_Throw _ _ _ _ Htext).
Qed.

(** A call of [request] that returns has made no call on the transport
    and rejected the promise with a [TypeError], or has built the
    options object and set out to make the calls planned. *)
Lemma request_returns env st this ro data o :
  (APIHelper.request env st this ro data).2 = Normal o →
  (∃ chunk,
     APIHelper.body data = Normal chunk ∧
     (APIHelper.request env st this ro data).1 = st ∧
     o = {| calls := []; result := Rejected TypeError |}) ∨
  ∃ chunk first text len,
      APIHelper.body data = Normal chunk ∧
      readable ro ∧
      get st (field st ro (lit "path")) (lit "0") = Normal first ∧
      ToString env st (field st ro (lit "path")) = Normal text ∧
      get_value chunk (lit "length") = Normal len ∧
      let d := described st this ro first text len in
      let st' := st ++ [merged st this ro
                          (base_headers (field st ro (lit "method")) len)] in
      let run := attempt env (planned (chosen_transport st this ro) d
                                      (field st' ro (lit "method")) chunk) in
      (APIHelper.request env st this ro data).1 = st' ∧
      o = {| calls := run.1; result := settlement env run.2 |}.
Proof.
  destruct (APIHelper.body data) as [chunk|e] eqn:Hbody;
    [|by rewrite (request_throws _ _ _ _ _ e)].
  destruct (decide (readable ro)) as [Hro|Hro];
    [|rewrite (request_unreadable _ _ _ _ _ chunk) by done; intros [= <-];
      left; by exists chunk].
  destruct (get st (field st ro (lit "path")) (lit "0")) as [first|e] eqn:Hfirst;
    [|rewrite (request_no_path _ _ _ _ _ chunk e) by done; intros [= <-];
      left; by exists chunk].
  destruct (ToString env st (field st ro (lit "path"))) as [text|e] eqn:Htext;
    [|rewrite (request_no_text _ _ _ _ _ chunk first e) by done; intros [= <-];
      left; by exists chunk].
  destruct (body_length data chunk Hbody) as [len Hlen].
  rewrite (request_issued env st this ro data chunk first text len) by done.
  cbn [fst snd]. intros [= <-]. right. by exists chunk, first, text, len.
Qed.

(** A request whose options can be read and supply a path that has a
    string reaches the transport. *)
Lemma request_reaches_transport env st this ro data chunk first text :
  APIHelper.body data = Normal chunk →
  readable ro →
  get st (field st ro (lit "path")) (lit "0") = Normal first →
  ToString env st (field st ro (lit "path")) = Normal text →
  ∃ len o rest,
    get_value chunk (lit "length") = Normal len ∧
    APIHelper.request env st this ro data
      = (st ++ [merged st this ro (base_headers (field st ro (lit "method")) len)],
         Normal o) ∧
    calls o = CRequest (chosen_transport st this ro)
                       (described st this ro first text len) :: rest.
Proof.
  intros Hbody Hro Hfirst Htext.
  destruct (body_length data chunk Hbody) as [len Hlen].
  rewrite (request_issued env st this ro data chunk first text len) by done.
  destruct (attempt_first env
              (CRequest (chosen_transport st this ro)
                        (described st this ro first text len))
              ((if is_string (lit "GET")
                     (field (st ++ [merged st this ro
                                      (base_headers (field st ro (lit "method")) len)])
                        ro (lit "method"))
                then [] else [CWrite chunk]) ++ [CEnd]))
    as [made Hmade].
  exists len. eexists _, made. split; [done|]. split; [done|].
  cbn [calls]. exact Hmade.
Qed.

(** The options supply a path: the first unit of the path can be read. *)
Lemma path_supplied st ro path :
  get st ro (lit "path") = Normal path →
  path ≠ Imm VUndefined → path ≠ Imm VNull →
  readable ro ∧ field st ro (lit "path") = path ∧
  ∃ first, get st path (lit "0") = Normal first.
Proof.
  intros Hpath Hu Hn. split; [by eapply get_Normal_readable|].
  split; [by apply get_Normal_field|].
  eexists. apply get_field. by apply readable_defined.
Qed.

(** Conversely, the first call of a [request] that reaches the transport
    is the one described. *)
Lemma request_first_call env st this ro data o t d rest :
  (APIHelper.request env st this ro data).2 = Normal o →
  calls o = CRequest t d :: rest →
  ∃ chunk first text len,
    APIHelper.body data = Normal chunk ∧
    readable ro ∧
    get st (field st ro (lit "path")) (lit "0") = Normal first ∧
    ToString env st (field st ro (lit "path")) = Normal text ∧
    get_value chunk (lit "length") = Normal len ∧
    t = chosen_transport st this ro ∧
    d = described st this ro first text len ∧
    (APIHelper.request env st this ro data).1
      = st ++ [merged st this ro (base_headers (field st ro (lit "method")) len)] ∧
    CRequest t d :: rest
      = (attempt env (planned t d
                        (field (APIHelper.request env st this ro data).1 ro (lit "method"))
                        chunk)).1.
Proof.
  intros Ho Hcalls.
  apply request_returns in Ho
    as [(chunk & _ & _ & ->)|(chunk & first & text & len & Hbody & Hro & Hfirst
                               & Htext & Hlen & Hstore & ->)]; [done|].
  cbn [calls] in Hcalls.
  destruct (attempt_first env
              (CRequest (chosen_transport st this ro)
                        (described st this ro first text len))
              ((if is_string (lit "GET")
                     (field (st ++ [merged st this ro
                                      (base_headers (field st ro (lit "method")) len)])
                        ro (lit "method"))
                then [] else [CWrite chunk]) ++ [CEnd]))
    as [made Hmade].
  unfold planned in Hcalls. rewrite Hmade in Hcalls. injection Hcalls as <- <- <-.
  exists chunk, first, text, len. split_and!; try done.
  rewrite Hstore. by rewrite <- Hmade.
Qed.

(** [request] only allocates. *)
Lemma request_extends_store env st this ro data :
  ∃ ext, (APIHelper.request env st this ro data).1 = st ++ ext.
Proof.
  destruct (APIHelper.request env st this ro data).2 as [o|e] eqn:Ho.
  - apply request_returns in Ho
      as [(chunk & _ & -> & _)|(chunk & first & text & len & _ & _ & _ & _ & _ & -> & _)].
    + exists []. by rewrite app_nil_r.
    + by eexists.
  - exists []. rewrite app_nil_r.
    unfold APIHelper.request in *. destruct (APIHelper.body data); [|done].
    by destruct (APIHelper.try_block _ _ _ _ _).
Qed.

(** The layers of the header mapping, for every name but [__proto__]:
    the headers of the call, else those of the instance, else the
    base. *)
Lemma merged_lookup st this ro base inst k :
  k ≠ lit "__proto__" →
  valid st ro →
  st !! APIHelper.headers this = Some inst →
  props (merged st this ro base) !! k
  = match source_props st (field st ro (lit "headers")) !! k with
    | Some v => Some v
    | None => match props inst !! k with
              | Some v => Some v
              | None => base !! k
              end
    end.
Proof.
  intros Hk Hro Hinst. unfold merged.
  set (layer := assigned st (literal base) (Ref (APIHelper.headers this))).
  assert (props layer !! k = match props inst !! k with
                             | Some v => Some v
                             | None => base !! k
                             end) as Hlayer.
  { unfold layer. rewrite assigned_lookup by done. simpl.
    by rewrite lookup_app_l, Hinst by (by eapply lookup_lt_Some). }
  rewrite assigned_lookup, field_alloc by done.
  destruct (field st ro (lit "headers")) as [v|l]; [by rewrite Hlayer|].
  simpl. destruct (decide (l < length st)%nat) as [Hl|Hl].
  - by rewrite lookup_app_l, Hlayer by done.
  - rewrite (lookup_ge_None_2 st l) by lia. simpl. rewrite lookup_empty.
    destruct (decide (l = length st)) as [->|Hne].
    + rewrite lookup_fresh. simpl. rewrite <- Hlayer. by destruct (props layer !! k).
    + rewrite lookup_ge_None_2 by (rewrite length_app; simpl; lia). simpl.
      by rewrite lookup_empty.
Qed.

(** ** The object of a wrapper *)

Lemma wrappers_with_method name f :
  (name, f) ∈ wrappers → f = APIHelper.with_method name.
Proof.
  unfold wrappers. rewrite !elem_of_cons, elem_of_nil.
  intros [[= -> ->]|[[= -> ->]|[[= -> ->]|[[= -> ->]|[[= -> ->]|[]]]]]]; done.
Qed.

Lemma includes_wrapper_name name f :
  (name, f) ∈ wrappers → includes APIHelper.METHODS (Imm (VStr (lit name))) = true.
Proof.
  unfold wrappers. rewrite !elem_of_cons, elem_of_nil.
  intros [[= -> _]|[[= -> _]|[[= -> _]|[[= -> _]|[[= -> _]|[]]]]]]; done.
Qed.

Lemma wrapper_is_GET name f :
  (name, f) ∈ wrappers →
  is_string (lit "GET") (Imm (VStr (lit name))) = bool_decide (name = "GET"%string).
Proof.
  unfold wrappers. rewrite !elem_of_cons, elem_of_nil.
  intros [[= -> _]|[[= -> _]|[[= -> _]|[[= -> _]|[[= -> _]|[]]]]]]; done.
Qed.

Lemma body_default_data data :
  APIHelper.body (APIHelper.default_data data) = APIHelper.body data.
Proof.
  unfold APIHelper.body.
  by replace (APIHelper.default_data (APIHelper.default_data data))
    with (APIHelper.default_data data) by (by destruct data).
Qed.

(** The default of [data] in a wrapper is the default [request] applies
    itself. *)
Lemma request_default_data env st this ro data :
  APIHelper.request env st this ro (APIHelper.default_data data)
  = APIHelper.request env st this ro data.
Proof. unfold APIHelper.request. by rewrite body_default_data. Qed.

(** The object a wrapper builds and passes to [request]. *)
Lemma with_method_delegates name env st this ro data :
  APIHelper.with_method name env st this ro data
  = APIHelper.request env
      (st ++ [assigned st (literal {[ lit "method" := Imm (VStr (lit name)) ]}) ro])
      this (Ref (length st)) data.
Proof.
  unfold APIHelper.with_method, alloc.
  by rewrite Object_assign_fresh, request_default_data.
Qed.

Lemma with_method_extends_store name env st this ro data :
  ∃ ext, (APIHelper.with_method name env st this ro data).1 = st ++ ext.
Proof.
  rewrite with_method_delegates.
  destruct (request_extends_store env
              (st ++ [assigned st (literal {[ lit "method" := Imm (VStr (lit name)) ]}) ro])
              this (Ref (length st)) data) as [ext ->].
  rewrite <- app_assoc. by eexists.
Qed.

(** The properties of that object, for every name but [__proto__]:
    those of the options, and the method of the wrapper where the
    options have none. *)
Lemma wrapper_object_lookup name st ro k :
  k ≠ lit "__proto__" →
  valid st ro →
  props (assigned st (literal {[ lit "method" := Imm (VStr (lit name)) ]}) ro) !! k
  = match source_props st ro !! k with
    | Some a => Some a
    | None => ({[ lit "method" := Imm (VStr (lit name)) ]} : mapping) !! k
    end.
Proof.
  intros Hk Hro. by rewrite assigned_lookup, source_props_alloc.
Qed.

(** The method a wrapper sends, whatever the options hold: that of the
    options where they have one, the wrapper's own otherwise, coerced by
    [request] as any other. *)
Lemma wrapper_method_sent name f env st this ro data chunk path text :
  (name, f) ∈ wrappers →
  valid st ro →
  APIHelper.body data = Normal chunk →
  source_props st ro !! lit "path" = Some path →
  path ≠ Imm VUndefined → path ≠ Imm VNull →
  (∀ st', ToString env st' path = Normal text) →
  ∃ o, (f env st this ro data).2 = Normal o ∧
       method_sent o
       = Some (let method := default (Imm (VStr (lit name)))
                               (source_props st ro !! lit "method") in
               if includes APIHelper.METHODS method then method
               else Imm (VStr (lit "GET"))).
Proof.
  intros Hf Hro Hbody Hpath Hu Hn Htext.
  rewrite (wrappers_with_method _ _ Hf), with_method_delegates.
  set (object := assigned st (literal {[ lit "method" := Imm (VStr (lit name)) ]}) ro).
  assert (field (st ++ [object]) (Ref (length st)) (lit "path") = path) as Hfield.
  { apply field_fresh. unfold object.
    by rewrite wrapper_object_lookup, Hpath by done. }
  destruct (request_reaches_transport env (st ++ [object]) this (Ref (length st))
              data chunk (field (st ++ [object]) path (lit "0")) text)
    as (len & o & rest & _ & Hrequest & Hcalls); [done|done| |by rewrite Hfield|].
  { rewrite Hfield. apply get_field. by apply readable_defined. }
  exists o. rewrite Hrequest. split; [done|].
  unfold method_sent. rewrite Hcalls. cbn [described d_method].
  assert (field (st ++ [object]) (Ref (length st)) (lit "method")
          = default (Imm (VStr (lit name))) (source_props st ro !! lit "method"))
    as ->; [|done].
  apply field_fresh. unfold object. rewrite wrapper_object_lookup by done.
  rewrite lookup_singleton_eq. by destruct (source_props st ro !! lit "method").
Qed.

(** ** C1: the method of a wrapper *)

(** C1 fails on the code: a wrapper passes on
    [Object.assign({ 'method': M }, requestOptions)], where a [method]
    of the options replaces [M]. [GET({ method: 'POST', path: '/x' },
    'abc')] hands a POST request to the transport, with
    [Content-Length] 3 and the body [abc]. *)
Theorem GET_keeps_the_method_of_the_caller :
  ∃ o,
    (APIHelper.GET quiet bare.1 bare.2
       (Imm (VObj [(lit "method", VStr (lit "POST")); (lit "path", VStr (lit "/x"))]))
       (VStr (lit "abc"))).2 = Normal o ∧
    method_sent o = Some (Imm (VStr (lit "POST"))) ∧
    method_sent o ≠ Some (Imm (VStr (lit "GET"))) ∧
    ∃ t d,
      calls o = [CRequest t d; CWrite (VStr (lit "abc")); CEnd] ∧
      d_headers d !! lit "Content-Length" = Some (Imm (VNum 3)).
Proof.
  eexists. split.
  - vm_compute. reflexivity.
  - split_and!.
    + vm_compute. reflexivity.
    + vm_compute. discriminate.
    + eexists _, _. split.
      * vm_compute. reflexivity.
      * vm_compute. reflexivity.
Qed.

(** ** C2: the method test *)

(** Where the method is the string [GET] itself, the base mapping is
    empty, so that [Content-Length] can only come from the instance or
    the call, and no body is written. *)
Lemma request_GET_sends_no_body env st this ro data o inst hs t d rest :
  valid st ro →
  st !! APIHelper.headers this = Some inst →
  get st ro (lit "method") = Normal (Imm (VStr (lit "GET"))) →
  get st ro (lit "headers") = Normal hs →
  (APIHelper.request env st this ro data).2 = Normal o →
  calls o = CRequest t d :: rest →
  (source_props st hs !! lit "Content-Length" = None →
   props inst !! lit "Content-Length" = None →
   d_headers d !! lit "Content-Length" = None) ∧
  ∀ chunk, CWrite chunk ∉ rest.
Proof.
  intros Hro Hinst Hmethod Hhs Ho Hcalls.
  destruct (request_first_call _ _ _ _ _ _ _ _ _ Ho Hcalls)
    as (chunk & first & text & len & _ & _ & _ & _ & _ & -> & -> & Hstore & Hrun).
  apply get_Normal_field in Hmethod, Hhs.
  split.
  - intros Hcall Hinstance. cbn [described d_headers].
    rewrite (merged_lookup st this ro _ inst) by done.
    by rewrite Hhs, Hcall, Hinstance, Hmethod.
  - intros chunk' Hchunk.
    assert (CWrite chunk' ∈ CRequest (chosen_transport st this ro)
                                     (described st this ro first text len) :: rest)
      as Hin by (by apply list_elem_of_further).
    rewrite Hrun in Hin. apply attempt_made in Hin.
    unfold planned in Hin. rewrite Hstore, field_alloc, Hmethod in Hin by done.
    simpl in Hin. rewrite !elem_of_cons, elem_of_nil in Hin.
    destruct Hin as [?|[?|[]]]; discriminate.
Qed.

(** C2 fails on the code where the method is left out: the transport is
    handed a GET request, yet the base mapping carries [Content-Length]
    and the data is written as body. In
    [request({ path: '/x' }, 'abc')] the header is 3 and the chunk
    [abc]. *)
Theorem request_without_method_sends_body :
  ∃ o,
    (APIHelper.request quiet bare.1 bare.2
       (Imm (VObj [(lit "path", VStr (lit "/x"))]))
       (VStr (lit "abc"))).2 = Normal o ∧
    method_sent o = Some (Imm (VStr (lit "GET"))) ∧
    ∃ t d,
      calls o = [CRequest t d; CWrite (VStr (lit "abc")); CEnd] ∧
      d_headers d !! lit "Content-Length" = Some (Imm (VNum 3)).
Proof.
  eexists. split.
  - vm_compute. reflexivity.
  - split.
    + vm_compute. reflexivity.
    + eexists _, _. split.
      * vm_compute. reflexivity.
      * vm_compute. reflexivity.
Qed.

(** ** C3: the body and its length *)

(** With a method that is not the string [GET], a value of type object
    that has a JSON text is sent as that text, and the base mapping
    gives [Content-Length] the number of code units of the text. *)
Lemma request_sends_JSON_text env st this ro data text inst hs m path ptext :
  valid st ro →
  st !! APIHelper.headers this = Some inst →
  (∀ c, throws env c = None) →
  get st ro (lit "method") = Normal m → is_string (lit "GET") m = false →
  get st ro (lit "headers") = Normal hs →
  get st ro (lit "path") = Normal path →
  path ≠ Imm VUndefined → path ≠ Imm VNull →
  ToString env st path = Normal ptext →
  typeof data = lit "object" →
  JSON_stringify data = Normal (VStr text) →
  ∃ o t d,
    (APIHelper.request env st this ro data).2 = Normal o ∧
    calls o = [CRequest t d; CWrite (VStr text); CEnd] ∧
    (source_props st hs !! lit "Content-Length" = None →
     props inst !! lit "Content-Length" = None →
     d_headers d !! lit "Content-Length"
     = Some (Imm (VNum (Z.of_nat (length text))))).
Proof.
  intros Hro Hinst Hquiet Hm Hget Hhs Hpath Hu Hn Hptext Hobject Htext.
  assert (APIHelper.body data = Normal (VStr text)) as Hbody.
  { unfold APIHelper.body.
    replace (APIHelper.default_data data) with data by (by destruct data).
    by rewrite bool_decide_eq_true_2. }
  destruct (path_supplied st ro path Hpath Hu Hn) as (Hread & Hfield & first & Hfirst).
  apply get_Normal_field in Hm, Hhs.
  eexists _, _, _.
  rewrite (request_issued env st this ro data (VStr text) first ptext
             (VNum (Z.of_nat (length text))))
    by (by rewrite ?Hfield, ?string_length).
  cbn [snd]. split; [done|]. cbn [calls]. rewrite attempt_accepted by done.
  cbn [fst]. unfold planned. rewrite field_alloc, Hm, Hget by done.
  split; [done|].
  intros Hcall Hinstance. cbn [described d_headers].
  rewrite (merged_lookup st this ro _ inst) by done.
  rewrite Hhs, Hcall, Hinstance, Hm. unfold base_headers. rewrite Hget.
  by rewrite lookup_singleton_eq.
Qed.

(** C3 fails on the code for a text that is not ASCII: with [é],
    U+00E9, for the value of [a], [POST({ path: '/x' }, { a: 'é' })]
    writes the JSON text of the data, nine code units that make ten
    bytes, and announces [Content-Length] 9. *)
Theorem POST_content_length_counts_code_units :
  let data := VObj [(lit "a", VStr [0xE9])] in
  let text := lit "{" ++ [dquote] ++ lit "a" ++ [dquote] ++ lit ":"
                ++ [dquote; 0xE9; dquote] ++ lit "}" in
  JSON_stringify data = Normal (VStr text) ∧
  (∃ o t d,
     (APIHelper.POST quiet bare.1 bare.2
        (Imm (VObj [(lit "path", VStr (lit "/x"))])) data).2 = Normal o ∧
     calls o = [CRequest t d; CWrite (VStr text); CEnd] ∧
     d_headers d !! lit "Content-Length" = Some (Imm (VNum 9))) ∧
  length text = 9%nat ∧
  byte_length text = 10%nat.
Proof.
  intros data text. split_and!.
  - vm_compute. reflexivity.
  - eexists _, _, _. split_and!.
    + vm_compute. reflexivity.
    + vm_compute. reflexivity.
    + vm_compute. reflexivity.
  - reflexivity.
  - vm_compute. reflexivity.
Qed.

(** ** C4: the response *)

Lemma data_accumulates env p s chunks :
  foldl (on_event env) {| settled := p; update := Some (VStr s) |} (Data <$> chunks)
  = {| settled := p; update := Some (VStr (s ++ concat chunks)) |}.
Proof.
  revert s. induction chunks as [|d chunks IH]; intros s; simpl.
  - by rewrite app_nil_r.
  - by rewrite IH, <- app_assoc.
Qed.

Lemma on_event_settled env l ev :
  settled l ≠ Pending → settled (on_event env l ev) = settled l.
Proof.
  destruct l as [p u]. simpl. intros Hp.
  destruct ev, u as [u|]; simpl; try done; try (by destruct p).
  by destruct (to_string u).
Qed.

Lemma settled_for_good env l evs :
  settled l ≠ Pending → settled (foldl (on_event env) l evs) = settled l.
Proof.
  revert l. induction evs as [|ev evs IH]; intros l Hl; [done|].
  simpl. rewrite IH; rewrite on_event_settled; done.
Qed.

Lemma deliver_completed env chunks rest :
  deliver env (Response :: (Data <$> chunks) ++ End :: rest)
  = Resolved match JSON_parse env (concat chunks) with
             | Some v => v
             | None => VStr (concat chunks)
             end.
Proof.
  unfold deliver. cbn [foldl on_event update settled].
  rewrite foldl_app, data_accumulates. cbn [foldl].
  by rewrite settled_for_good.
Qed.

Lemma rejected_by_event env evs l e :
  settled (foldl (on_event env) l evs) = Rejected e →
  settled l = Rejected e ∨
  ∃ v, e = Thrown v ∧ (ReqError v ∈ evs ∨ StreamError v ∈ evs).
Proof.
  revert l. induction evs as [|ev evs IH]; intros l Hrej; [by left|].
  simpl in Hrej. apply IH in Hrej as [Hstep|(v & -> & Hin)].
  - destruct l as [p u]. simpl in *.
    destruct ev, u as [u|], p; simpl in Hstep;
      try (destruct (to_string u); simpl in Hstep);
      try discriminate; try (left; congruence);
      injection Hstep as <-; right; eexists; split; try done;
      rewrite !elem_of_cons; auto.
  - right. exists v. split; [done|]. rewrite !elem_of_cons. tauto.
Qed.

(** On a transport that accepts the calls, a request that reaches it
    leaves the promise to the events. *)
Lemma request_accepted env st this ro data chunk path text :
  APIHelper.body data = Normal chunk →
  (∀ c, throws env c = None) →
  get st ro (lit "path") = Normal path →
  path ≠ Imm VUndefined → path ≠ Imm VNull →
  ToString env st path = Normal text →
  ∃ o, (APIHelper.request env st this ro data).2 = Normal o ∧
       result o = deliver env (events env).
Proof.
  intros Hbody Hquiet Hpath Hu Hn Htext.
  destruct (path_supplied st ro path Hpath Hu Hn) as (Hro & Hfield & first & Hfirst).
  destruct (body_length data chunk Hbody) as [len Hlen].
  rewrite (request_issued env st this ro data chunk first text len)
    by (by rewrite ?Hfield).
  eexists. split; [done|]. cbn [result]. by rewrite attempt_accepted.
Qed.

(** C4. When the transport has accepted the request and the response
    stream delivers its chunks and ends, the promise is resolved, and
    with a value that depends on the accumulated text alone: the value
    [JSON.parse] returns for it or, when [JSON.parse] throws, the text
    itself. A rejection never comes from [JSON.parse]: a rejected
    promise carries the [TypeError] of the [try] block, a value thrown
    by the transport, or the value of an error event. *)
Theorem response_resolution :
  (∀ env st this ro data chunk path text chunks rest,
     APIHelper.body data = Normal chunk →
     get st ro (lit "path") = Normal path →
     path ≠ Imm VUndefined → path ≠ Imm VNull →
     ToString env st path = Normal text →
     (∀ c, throws env c = None) →
     events env = Response :: (Data <$> chunks) ++ End :: rest →
     ∃ o, (APIHelper.request env st this ro data).2 = Normal o ∧
          result o = Resolved match JSON_parse env (concat chunks) with
                              | Some v => v
                              | None => VStr (concat chunks)
                              end) ∧
  (∀ env st this ro data o e,
     (APIHelper.request env st this ro data).2 = Normal o →
     result o = Rejected e →
     e = TypeError ∨
     ∃ v, e = Thrown v ∧
          ((∃ c, throws env c = Some v) ∨
           ReqError v ∈ events env ∨ StreamError v ∈ events env)).
Proof.
  split.
  - intros env st this ro data chunk path text chunks rest
      Hbody Hpath Hu Hn Htext Hquiet Hevents.
    destruct (request_accepted env st this ro data chunk path text)
      as (o & Ho & Hresult); try done.
    exists o. split; [done|]. rewrite Hresult, Hevents. apply deliver_completed.
  - intros env st this ro data o e Ho.
    apply request_returns in Ho
      as [(chunk & _ & _ & ->)|(chunk & first & text & len & _ & _ & _ & _ & _ & _ & ->)].
    + simpl. intros [= <-]. by left.
    + cbn [result].
      destruct (attempt env _) as [made [[]|e']] eqn:Hrun; cbn [snd settlement].
      * intros Hrej. apply rejected_by_event in Hrej as [Hrej|(v & -> & Hin)];
          [done|]. right. exists v. tauto.
      * intros [= <-].
        destruct (attempt_throws env _ e' (f_equal snd Hrun)) as (c & v & Hc & ->).
        right. exists v. eauto.
Qed.

Lemma response_resolution_witness :
  (∃ o, (APIHelper.request
           (answering [lit "{"; [dquote] ++ lit "a" ++ [dquote]; lit ":1}"])
           bare.1 bare.2 (Imm (VObj [(lit "path", VStr (lit "/x"))])) VUndefined).2
        = Normal o ∧
        result o = Resolved (VObj [(lit "a", VNum 1)])) ∧
  (∃ o, (APIHelper.request (answering [lit "not-"; lit "json"])
           bare.1 bare.2 (Imm (VObj [(lit "path", VStr (lit "/x"))])) VUndefined).2
        = Normal o ∧
        result o = Resolved (VStr (lit "not-json"))).
Proof.
  split.
  - apply (proj1 response_resolution
             (answering [lit "{"; [dquote] ++ lit "a" ++ [dquote]; lit ":1}"])
             bare.1 bare.2 (Imm (VObj [(lit "path", VStr (lit "/x"))])) VUndefined
             (VStr []) (Imm (VStr (lit "/x"))) (lit "/x")
             [lit "{"; [dquote] ++ lit "a" ++ [dquote]; lit ":1}"] []);
      (reflexivity || discriminate).
  - apply (proj1 response_resolution
             (answering [lit "not-"; lit "json"])
             bare.1 bare.2 (Imm (VObj [(lit "path", VStr (lit "/x"))])) VUndefined
             (VStr []) (Imm (VStr (lit "/x"))) (lit "/x") [lit "not-"; lit "json"] []);
      (reflexivity || discriminate).
Defined.

(** ** C5: header precedence *)

(** C5. In the header mapping handed to the transport, a key of
    [requestOptions.headers] carries the value given there, whatever the
    other layers hold; a key missing there and present in the instance
    headers carries the instance value, whatever the base mapping
    holds. The name [__proto__] is left aside: [Object.assign] writes
    it through the setter of [Object.prototype] where it reaches
    it. *)
Theorem header_precedence env st this ro data o t d rest inst hs k :
  k ≠ lit "__proto__" →
  valid st ro →
  st !! APIHelper.headers this = Some inst →
  get st ro (lit "headers") = Normal hs →
  (APIHelper.request env st this ro data).2 = Normal o →
  calls o = CRequest t d :: rest →
  (∀ v, source_props st hs !! k = Some v → d_headers d !! k = Some v) ∧
  (source_props st hs !! k = None →
   ∀ v, props inst !! k = Some v → d_headers d !! k = Some v).
Proof.
  intros Hk Hro Hinst Hhs Ho Hcalls.
  destruct (request_first_call _ _ _ _ _ _ _ _ _ Ho Hcalls)
    as (chunk & first & text & len & _ & _ & _ & _ & _ & _ & -> & _).
  cbn [described d_headers].
  rewrite (merged_lookup st this ro _ inst k) by done.
  rewrite (get_Normal_field _ _ _ _ Hhs).
  split.
  - by intros v ->.
  - by intros -> v ->.
Qed.

Lemma header_precedence_witness :
  ∃ o t d rest,
    (APIHelper.request quiet configured.1 configured.2
       (Imm (VObj [(lit "path", VStr (lit "/x"));
                   (lit "method", VStr (lit "POST"));
                   (lit "headers",
                    VObj [(lit "Content-Length", VStr (lit "5"))])]))
       (VStr (lit "abc"))).2 = Normal o ∧
    calls o = CRequest t d :: rest ∧
    d_headers d !! lit "Content-Length" = Some (Imm (VStr (lit "5"))) ∧
    d_headers d !! lit "Accept" = Some (Imm (VStr (lit "a"))).
Proof.
  pose (ro := Imm (VObj [(lit "path", VStr (lit "/x"));
                         (lit "method", VStr (lit "POST"));
                         (lit "headers",
                          VObj [(lit "Content-Length", VStr (lit "5"))])])).
  pose (hs := Imm (VObj [(lit "Content-Length", VStr (lit "5"))])).
  destruct (request_reaches_transport quiet configured.1 configured.2 ro
              (VStr (lit "abc")) (VStr (lit "abc")) (Imm (VStr (lit "/"))) (lit "/x")
              eq_refl I eq_refl eq_refl)
    as (len & o & rest & _ & Hrequest & Hcalls).
  pose proof (f_equal snd Hrequest) as Ho. cbn [snd] in Ho.
  eexists o, _, _, rest. split; [exact Ho|]. split; [exact Hcalls|].
  split.
  - apply (proj1 (header_precedence quiet configured.1 configured.2 ro
                      (VStr (lit "abc")) o _ _ rest configured_headers hs
                      (lit "Content-Length")
                      ltac:(discriminate) I eq_refl eq_refl Ho Hcalls)).
    reflexivity.
  - apply (proj2 (header_precedence quiet configured.1 configured.2 ro
                      (VStr (lit "abc")) o _ _ rest configured_headers hs
                      (lit "Accept")
                      ltac:(discriminate) I eq_refl eq_refl Ho Hcalls));
      reflexivity.
Defined.

(** ** C6: the path *)

Lemma first_unit path :
  property (VStr path) (lit "0")
  = match path with
    | c :: _ => VStr [c]
    | [] => VUndefined
    end.
Proof.
  unfold property. destruct path as [|c path]; [done|].
  cbn [own_props imap]. rewrite list_to_map_cons.
  change (index_key 0) with (lit "0"). by rewrite lookup_insert_eq.
Qed.

(** C6. For every string path, the path handed to the transport is the
    path itself when it begins with a slash, and the path with one slash
    put in front otherwise. *)
Theorem request_path_normalized env st this ro data chunk path :
  APIHelper.body data = Normal chunk →
  get st ro (lit "path") = Normal (Imm (VStr path)) →
  ∃ o t d rest,
    (APIHelper.request env st this ro data).2 = Normal o ∧
    calls o = CRequest t d :: rest ∧
    (begins_with_slash path → d_path d = path) ∧
    (¬ begins_with_slash path → d_path d = lit "/" ++ path).
Proof.
  intros Hbody Hpath.
  pose proof (get_Normal_readable _ _ _ _ Hpath) as Hro.
  apply get_Normal_field in Hpath.
  destruct (request_reaches_transport env st this ro data chunk
              (Imm match path with c :: _ => VStr [c] | [] => VUndefined end) path)
    as (len & o & rest & _ & Hrequest & Hcalls);
    [done|done|by rewrite Hpath; simpl; rewrite first_unit|by rewrite Hpath|].
  eexists o, _, _, rest. rewrite Hrequest. split; [done|]. split; [exact Hcalls|].
  cbn [described d_path].
  split.
  - intros [rest' ->]. done.
  - intros Hno. destruct path as [|c path]; [done|].
    unfold is_string. case_bool_decide as Hc; [|done].
    destruct Hno. exists path. by injection Hc as ->.
Qed.

Lemma request_path_normalized_witness :
  ∃ o t d rest,
    (APIHelper.request quiet bare.1 bare.2
       (Imm (VObj [(lit "path", VStr (lit "users"))])) VUndefined).2 = Normal o ∧
    calls o = CRequest t d :: rest ∧
    (begins_with_slash (lit "users") → d_path d = lit "users") ∧
    (¬ begins_with_slash (lit "users") → d_path d = lit "/" ++ lit "users").
Proof.
  apply (request_path_normalized quiet bare.1 bare.2
           (Imm (VObj [(lit "path", VStr (lit "users"))])) VUndefined (VStr [])
           (lit "users")).
  - reflexivity.
  - reflexivity.
Defined.

(** ** C7: setting and deleting headers *)

(** C7. [setHeader(k, '')] and [setHeader(k, undefined)] leave the
    store exactly as [deleteHeader(k)] does, and throw nothing;
    [deleteHeader(k)] removes the entry of [k] from the header mapping,
    keeps every other entry, the prototype and every other object, and
    changes nothing when [k] has no entry. *)
Theorem setHeader_empty_is_deleteHeader st this key :
  APIHelper.setHeader st this key (Imm (VStr []))
    = Normal (APIHelper.deleteHeader st this key) ∧
  APIHelper.setHeader st this key (Imm VUndefined)
    = Normal (APIHelper.deleteHeader st this key) ∧
  (∀ l, l ≠ APIHelper.headers this →
        APIHelper.deleteHeader st this key !! l = st !! l) ∧
  (∀ o, st !! APIHelper.headers this = Some o →
        APIHelper.deleteHeader st this key !! APIHelper.headers this
          = Some (remove key o) ∧
        props (remove key o) !! key = None ∧
        (∀ k, k ≠ key → props (remove key o) !! k = props o !! k) ∧
        proto (remove key o) = proto o ∧
        (props o !! key = None → APIHelper.deleteHeader st this key = st)).
Proof.
  split; [done|]. split; [done|]. split.
  - intros l Hl. unfold APIHelper.deleteHeader.
    by rewrite list_lookup_alter_ne.
  - intros o Ho. unfold APIHelper.deleteHeader. split_and!.
    + by rewrite list_lookup_alter_eq, Ho.
    + apply lookup_delete_eq.
    + intros k Hk. simpl. by rewrite lookup_delete_ne.
    + done.
    + intros Hkey.
      transitivity (alter id (APIHelper.headers this) st);
        [|by apply list_alter_id].
      apply list_alter_ext; [|done].
      intros x Hx. rewrite Ho in Hx. injection Hx as <-.
      unfold remove. rewrite delete_id by done. by destruct o.
Qed.

Lemma setHeader_empty_is_deleteHeader_witness :
  let o := configured_headers in
  APIHelper.deleteHeader configured.1 configured.2 (lit "Accept")
    !! APIHelper.headers configured.2 = Some (remove (lit "Accept") o) ∧
  props (remove (lit "Accept") o) !! lit "Accept" = None ∧
  (∀ k, k ≠ lit "Accept" → props (remove (lit "Accept") o) !! k = props o !! k) ∧
  proto (remove (lit "Accept") o) = proto o ∧
  (props o !! lit "Accept" = None
   → APIHelper.deleteHeader configured.1 configured.2 (lit "Accept") = configured.1).
Proof.
  intros o.
  apply (setHeader_empty_is_deleteHeader configured.1 configured.2 (lit "Accept")).
  reflexivity.
Defined.

(** ** C8: the stored state *)

Lemma constructor_allocates st ro hd :
  valid st ro → valid st hd →
  APIHelper.constructor st ro hd
  = (st ++ [copy st hd; copy st ro],
     {| APIHelper.headers := length st; APIHelper.requestOptions := S (length st) |}).
Proof.
  intros Hro Hhd.
  unfold APIHelper.constructor, alloc.
  rewrite (Object_assign_fresh st (literal ∅) hd).
  rewrite (assigned_literal st ∅ hd) by done.
  rewrite (source_props_alloc st [literal ∅] hd) by done.
  rewrite (map_union_empty (delete (lit "__proto__") (source_props st hd))).
  fold (copy st hd).
  rewrite (Object_assign_fresh (st ++ [copy st hd]) (literal ∅) ro).
  rewrite (assigned_literal (st ++ [copy st hd]) ∅ ro) by done.
  rewrite <- !(app_assoc st), (source_props_alloc st _ ro) by done.
  rewrite (map_union_empty (delete (lit "__proto__") (source_props st ro))).
  fold (copy st ro).
  rewrite length_app. simpl.
  do 2 f_equal. lia.
Qed.

(** A copy of properties held by value shares nothing. *)
Lemma copy_unshared st source :
  (∀ k a, source_props st source !! k = Some a → by_value a) →
  unshared (copy st source).
Proof.
  intros Hsource. split; simpl.
  - intros k a [_ Hk]%lookup_delete_Some. by eapply Hsource.
  - intros l. destruct (source_props st source !! lit "__proto__") as [a|] eqn:Ha;
      [|done].
    apply Hsource in Ha. destruct a as [v|]; [|done]. by destruct v.
Qed.

(** What is read from an object that shares nothing depends on that
    object alone, and is held by value. *)
Lemma unshared_field st1 st2 l o k :
  st1 !! l = Some o → st2 !! l = Some o → unshared o →
  field st1 (Ref l) k = field st2 (Ref l) k ∧ by_value (field st1 (Ref l) k).
Proof.
  intros H1 H2 [Hprops Hproto]. unfold field, get.
  assert (∀ st, st !! l = Some o →
            inherited (length st) st (Shared_prototype l) k
            = match props o !! k with
              | Some a => a
              | None => inherited 0 st (proto o) k
              end) as Hread.
  { intros st Hst. destruct (length st) as [|n] eqn:Hn.
    - apply lookup_lt_Some in Hst. lia.
    - simpl. rewrite Hst. destruct (props o !! k); [done|].
      destruct (proto o) as [| | |l'] eqn:Ho; try (by destruct n).
      by destruct (Hproto l'). }
  rewrite (Hread st1 H1), (Hread st2 H2).
  destruct (props o !! k) as [a|] eqn:Hk; [split; [done|by eapply Hprops]|].
  by destruct (proto o).
Qed.

(** C8, amended. [request] and the five wrappers leave every object of
    the store as it was, the header mapping and the option mapping of
    the instance among them: what they build, they build in new
    objects, and the merged header mapping of a request is the one
    object [request] adds. The constructor stores, in two new objects
    distinct from every object that existed before, a copy one level
    deep of the own properties of the two mappings it is given, but of
    [__proto__], whose value becomes the prototype: a later write to an
    object the caller holds does not change the two objects. Where the
    mappings hold their properties by value, the two objects share
    nothing, and what is read from the instance depends on them
    alone. *)
Theorem stored_state_preserved_and_owned :
  (∀ env st this ro data l,
     (l < length st)%nat →
     (APIHelper.request env st this ro data).1 !! l = st !! l) ∧
  (∀ env st this ro data o t d rest,
     (APIHelper.request env st this ro data).2 = Normal o →
     calls o = CRequest t d :: rest →
     ∃ h, (APIHelper.request env st this ro data).1 = st ++ [h] ∧
          props h = d_headers d) ∧
  (∀ name f env st this ro data l,
     (name, f) ∈ wrappers →
     (l < length st)%nat →
     (f env st this ro data).1 !! l = st !! l) ∧
  (∀ st ro hd,
     valid st ro → valid st hd →
     let st' := (APIHelper.constructor st ro hd).1 in
     let this := (APIHelper.constructor st ro hd).2 in
     st' !! APIHelper.headers this = Some (copy st hd) ∧
     st' !! APIHelper.requestOptions this = Some (copy st ro) ∧
     APIHelper.headers this ≠ APIHelper.requestOptions this ∧
     (∀ l, (l < length st)%nat →
           st' !! l = st !! l ∧
           l ≠ APIHelper.headers this ∧
           l ≠ APIHelper.requestOptions this ∧
           ∀ f, alter f l st' !! APIHelper.headers this
                  = st' !! APIHelper.headers this ∧
                alter f l st' !! APIHelper.requestOptions this
                  = st' !! APIHelper.requestOptions this) ∧
     ((∀ k a, source_props st hd !! k = Some a → by_value a) →
      unshared (copy st hd)) ∧
     ((∀ k a, source_props st ro !! k = Some a → by_value a) →
      unshared (copy st ro))) ∧
  (∀ st1 st2 l o k,
     st1 !! l = Some o → st2 !! l = Some o → unshared o →
     field st1 (Ref l) k = field st2 (Ref l) k ∧ by_value (field st1 (Ref l) k)).
Proof.
  split_and!.
  - intros env st this ro data l Hl.
    destruct (request_extends_store env st this ro data) as [ext ->].
    by apply lookup_app_l.
  - intros env st this ro data o t d rest Ho Hcalls.
    destruct (request_first_call _ _ _ _ _ _ _ _ _ Ho Hcalls)
      as (chunk & first & text & len & _ & _ & _ & _ & _ & _ & -> & -> & _).
    by eexists.
  - intros name f env st this ro data l Hf Hl.
    rewrite (wrappers_with_method _ _ Hf).
    destruct (with_method_extends_store name env st this ro data) as [ext ->].
    by apply lookup_app_l.
  - intros st ro hd Hro Hhd. rewrite constructor_allocates by done.
    cbn [fst snd APIHelper.headers APIHelper.requestOptions].
    split_and!.
    + by apply list_lookup_middle.
    + change (st ++ [copy st hd; copy st ro])
        with (st ++ [copy st hd] ++ [copy st ro]).
      rewrite app_assoc. apply list_lookup_middle. rewrite length_app. simpl. lia.
    + lia.
    + intros l Hl. split_and!; [by apply lookup_app_l|lia|lia|].
      intros f. split; apply list_lookup_alter_ne; lia.
    + apply copy_unshared.
    + apply copy_unshared.
  - apply unshared_field.
Qed.

Lemma stored_state_preserved_and_owned_witness :
  let st' := (APIHelper.constructor caller_store (Ref 1) (Ref 0)).1 in
  let this := (APIHelper.constructor caller_store (Ref 1) (Ref 0)).2 in
  let ro := Imm (VObj [(lit "path", VStr (lit "/x"));
                       (lit "headers", VObj [(lit "Accept", VStr (lit "b"))])]) in
  (APIHelper.request quiet st' this ro (VStr (lit "abc"))).1 !! APIHelper.headers this
    = st' !! APIHelper.headers this ∧
  (APIHelper.POST quiet st' this ro (VStr (lit "abc"))).1 !! APIHelper.requestOptions this
    = st' !! APIHelper.requestOptions this ∧
  st' !! APIHelper.headers this = Some (copy caller_store (Ref 0)) ∧
  alter (define (lit "Accept") (Imm (VStr (lit "b")))) 0%nat st' !! APIHelper.headers this
    = st' !! APIHelper.headers this ∧
  unshared (copy caller_store (Ref 0)) ∧
  field (alter (define (lit "Accept") (Imm (VStr (lit "b")))) 0%nat st')
        (Ref (APIHelper.headers this)) (lit "Accept")
    = field st' (Ref (APIHelper.headers this)) (lit "Accept").
Proof.
  intros st' this ro.
  destruct stored_state_preserved_and_owned
    as (Hrequest & _ & Hwrapper & Hconstructor & Hread).
  assert (valid caller_store (Ref 1)) as H1 by reflexivity.
  assert (valid caller_store (Ref 0)) as H0 by reflexivity.
  assert (unshared (copy caller_store (Ref 0))) as Hunshared.
  { apply (Hconstructor caller_store (Ref 1) (Ref 0) H1 H0).
    intros k a Hk. simpl in Hk.
    apply lookup_fmap_Some in Hk as (v & <- & _). exact I. }
  split_and!.
  - apply Hrequest. vm_compute. lia.
  - apply (Hwrapper "POST"%string); [|vm_compute; lia].
    unfold wrappers. apply list_elem_of_further, list_elem_of_here.
  - apply (Hconstructor caller_store (Ref 1) (Ref 0) H1 H0).
  - apply (Hconstructor caller_store (Ref 1) (Ref 0) H1 H0). vm_compute. lia.
  - exact Hunshared.
  - apply (Hread _ _ _ (copy caller_store (Ref 0))); [| |exact Hunshared].
    + transitivity (st' !! APIHelper.headers this).
      * apply (Hconstructor caller_store (Ref 1) (Ref 0) H1 H0). vm_compute. lia.
      * apply (Hconstructor caller_store (Ref 1) (Ref 0) H1 H0).
    + apply (Hconstructor caller_store (Ref 1) (Ref 0) H1 H0).
Defined.

(** C8 as stated fails for a mapping that holds an object: the copy is
    one level deep. With a header mapping that has an object of the
    caller for the value of [Accept], the header mapping of the
    instance holds that same object, and hands it to the transport
    with whatever the caller has made of it by then. With an options
    object that has an object of the caller for the value of
    [__proto__], the option mapping of the instance has that object
    for its prototype and reads its defaults through it: when the
    caller changes the object after the construction, a request of the
    instance goes to another host. In both cases the mappings of the
    instance themselves are as they were. *)
Lemma instance_shares_objects_with_the_caller :
  let ro := Imm (VObj [(lit "path", VStr (lit "/x"))]) in
  (let made := APIHelper.constructor nested_store (Imm VUndefined) (Ref 1) in
   let later := alter (define (lit "0") (Imm (VStr (lit "b")))) 0%nat made.1 in
   made.1 !! APIHelper.headers made.2 = Some (literal {[ lit "Accept" := Ref 0 ]}) ∧
   ¬ unshared (literal {[ lit "Accept" := Ref 0 ]}) ∧
   (∃ o t d rest,
      (APIHelper.request quiet later made.2 ro VUndefined).2 = Normal o ∧
      calls o = CRequest t d :: rest ∧
      d_headers d !! lit "Accept" = Some (Ref 0)) ∧
   field made.1 (Ref 0) (lit "0") = Imm (VStr (lit "a")) ∧
   field later (Ref 0) (lit "0") = Imm (VStr (lit "b")) ∧
   later !! APIHelper.headers made.2 = made.1 !! APIHelper.headers made.2) ∧
  (let made := APIHelper.constructor linked_store (Ref 1) (Imm VUndefined) in
   let later :=
     alter (define (lit "hostname") (Imm (VStr (lit "b.test")))) 0%nat made.1 in
   (∃ o t d rest,
      (APIHelper.request quiet made.1 made.2 ro VUndefined).2 = Normal o ∧
      calls o = CRequest t d :: rest ∧
      d_hostname d = Imm (VStr (lit "a.test"))) ∧
   (∃ o t d rest,
      (APIHelper.request quiet later made.2 ro VUndefined).2 = Normal o ∧
      calls o = CRequest t d :: rest ∧
      d_hostname d = Imm (VStr (lit "b.test"))) ∧
   later !! APIHelper.requestOptions made.2
     = made.1 !! APIHelper.requestOptions made.2 ∧
   later !! APIHelper.headers made.2 = made.1 !! APIHelper.headers made.2).
Proof.
  intros ro. split.
  - intros made later. split_and!.
    + vm_compute. reflexivity.
    + intros [Hprops _].
      apply (Hprops (lit "Accept") (Ref 0)). apply lookup_singleton_eq.
    + eexists _, _, _, _. split_and!.
      * vm_compute. reflexivity.
      * vm_compute. reflexivity.
      * vm_compute. reflexivity.
    + reflexivity.
    + reflexivity.
    + reflexivity.
  - intros made later. split_and!.
    + eexists _, _, _, _. split_and!.
      * vm_compute. reflexivity.
      * vm_compute. reflexivity.
      * vm_compute. reflexivity.
    + eexists _, _, _, _. split_and!.
      * vm_compute. reflexivity.
      * vm_compute. reflexivity.
      * vm_compute. reflexivity.
    + reflexivity.
    + reflexivity.
Qed.

(** ** C9: the transport chosen *)

(** C9, amended. For every call that returns and supplies a path that
    has a string, the transport is HTTPS exactly when the resolved
    protocol is the string [https], where the resolved protocol is
    [requestOptions.protocol || defaults.protocol]: the protocol of the
    call when that is truthy (in particular a non-empty string), the
    instance default otherwise (in particular when the call has none).
    Every other resolved value selects plain HTTP, and the choice raises
    no error: with a transport that accepts the calls, the promise is
    settled by the events alone. *)
Theorem request_transport_selection env st this ro data chunk p q path text :
  APIHelper.body data = Normal chunk →
  get st ro (lit "protocol") = Normal p →
  get st (Ref (APIHelper.requestOptions this)) (lit "protocol") = Normal q →
  get st ro (lit "path") = Normal path →
  path ≠ Imm VUndefined → path ≠ Imm VNull →
  ToString env st path = Normal text →
  ∃ o t d rest,
    (APIHelper.request env st this ro data).2 = Normal o ∧
    calls o = CRequest t d :: rest ∧
    (t = HTTPS ↔ (if truthy p then p else q) = Imm (VStr (lit "https"))) ∧
    (t ≠ HTTPS → t = HTTP) ∧
    (∀ s, p = Imm (VStr s) → s ≠ [] → (t = HTTPS ↔ s = lit "https")) ∧
    (p = Imm VUndefined → (t = HTTPS ↔ q = Imm (VStr (lit "https")))) ∧
    ((∀ c, throws env c = None) → result o = deliver env (events env)).
Proof.
  intros Hbody Hp Hq Hpath Hu Hn Htext.
  destruct (path_supplied st ro path Hpath Hu Hn) as (Hro & Hfield & first & Hfirst).
  apply get_Normal_field in Hp, Hq.
  destruct (body_length data chunk Hbody) as [len Hlen].
  assert (Hsel : chosen_transport st this ro = HTTPS
                 ↔ (if truthy p then p else q) = Imm (VStr (lit "https"))).
  { unfold chosen_transport. rewrite Hp, Hq.
    destruct (if truthy p then p else q) as [[| |b|n|n|s|xs|kvs]|l]; simpl; try done.
    case_bool_decide as Hs; [by subst|]. split; [done|]. intros [= ->]. done. }
  rewrite (request_issued env st this ro data chunk first text len)
    by (by rewrite ?Hfield).
  destruct (attempt_first env
              (CRequest (chosen_transport st this ro)
                        (described st this ro first text len))
              ((if is_string (lit "GET")
                     (field (st ++ [merged st this ro
                                      (base_headers (field st ro (lit "method")) len)])
                        ro (lit "method"))
                then [] else [CWrite chunk]) ++ [CEnd]))
    as [made Hmade].
  eexists _, _, _, made. split; [done|]. cbn [calls result].
  split; [exact Hmade|].
  split_and!.
  - exact Hsel.
  - by destruct (chosen_transport st this ro).
  - intros s -> Hs. rewrite Hsel. simpl.
    rewrite bool_decide_eq_false_2 by done. simpl.
    split; [by intros [= ->]|by intros ->].
  - intros ->. exact Hsel.
  - intros Hquiet. by rewrite attempt_accepted.
Qed.

Lemma request_transport_selection_witness :
  ∃ o d rest,
    (APIHelper.request quiet configured.1 configured.2
       (Imm (VObj [(lit "protocol", VStr (lit "ftp"));
                   (lit "path", VStr (lit "/x"))])) VUndefined).2 = Normal o ∧
    calls o = CRequest HTTP d :: rest.
Proof.
  destruct (request_transport_selection quiet configured.1 configured.2
              (Imm (VObj [(lit "protocol", VStr (lit "ftp"));
                          (lit "path", VStr (lit "/x"))])) VUndefined (VStr [])
              (Imm (VStr (lit "ftp"))) (Imm (VStr (lit "https")))
              (Imm (VStr (lit "/x"))) (lit "/x")
              eq_refl eq_refl eq_refl eq_refl)
    as (o & t & d & rest & Ho & Hcalls & Hhttps & Hhttp & _);
    [discriminate|discriminate|reflexivity|].
  exists o, d, rest. split; [exact Ho|]. rewrite Hcalls. f_equal. f_equal.
  apply Hhttp. rewrite Hhttps. discriminate.
Defined.

(** C9 as stated fails where the protocol of the call is present and
    falsy: in [request({ protocol: '', path: '/x' })] on an instance
    whose default is [https], the protocol of the call is the empty
    string, so that the protocol resolved by presence is not [https],
    and the request goes to the HTTPS transport. *)
Lemma empty_protocol_uses_default :
  let ro := Imm (VObj [(lit "protocol", VStr []); (lit "path", VStr (lit "/x"))]) in
  get configured.1 ro (lit "protocol") = Normal (Imm (VStr [])) ∧
  get configured.1 (Ref (APIHelper.requestOptions configured.2)) (lit "protocol")
    = Normal (Imm (VStr (lit "https"))) ∧
  protocol_if_present (Imm (VStr [])) (Imm (VStr (lit "https")))
    ≠ Imm (VStr (lit "https")) ∧
  ∃ o d rest,
    (APIHelper.request quiet configured.1 configured.2 ro VUndefined).2 = Normal o ∧
    calls o = CRequest HTTPS d :: rest.
Proof.
  split_and!; [reflexivity|reflexivity|discriminate|].
  eexists _, _, _. split.
  - vm_compute. reflexivity.
  - vm_compute. reflexivity.
Qed.

(** ** C10: a missing path *)

(** Where the data has a body to send, a call without a path returns a
    promise that is rejected with the [TypeError] raised while the
    options object is built; nothing is sent to the transport and the
    store is left as it was. *)
Lemma request_without_path_rejects env st this ro data chunk :
  APIHelper.body data = Normal chunk →
  get st ro (lit "path") = Normal (Imm VUndefined) →
  APIHelper.request env st this ro data
  = (st, Normal {| calls := []; result := Rejected TypeError |}).
Proof.
  intros Hbody Hpath.
  apply (request_no_path _ _ _ _ _ chunk TypeError);
    [done|by eapply get_Normal_readable|].
  by rewrite (get_Normal_field _ _ _ _ Hpath).
Qed.

(** C10 fails on the code for data that [JSON.stringify] throws for:
    the conversion of lines 51 to 53 runs before the promise is made
    and outside the [try] block. In [request({}, { a: 1n })], where
    the options have no path and the data holds a BigInt, the call
    returns no promise: the [TypeError] of [JSON.stringify] is thrown to
    the caller. With data that has a JSON text the same call returns a
    rejected promise. *)
Theorem request_throws_to_the_caller :
  let ro := Imm (VObj []) in
  get bare.1 ro (lit "path") = Normal (Imm VUndefined) ∧
  APIHelper.request quiet bare.1 bare.2 ro (VObj [(lit "a", VBigInt 1)])
    = (bare.1, Throw TypeError) ∧
  APIHelper.request quiet bare.1 bare.2 ro (VObj [(lit "a", VNum 1)])
    = (bare.1, Normal {| calls := []; result := Rejected TypeError |}).
Proof.
  split_and!.
  - reflexivity.
  - vm_compute. reflexivity.
  - vm_compute. reflexivity.
Qed.

(** * Further properties *)

(** ** The options object: method, host and port *)

(** A call that supplies a path with a string, with data that has a
    body: the request is made as described. *)
Lemma request_described env st this ro data chunk path text :
  APIHelper.body data = Normal chunk →
  get st ro (lit "path") = Normal path →
  path ≠ Imm VUndefined → path ≠ Imm VNull →
  ToString env st path = Normal text →
  ∃ first len o rest,
    get_value chunk (lit "length") = Normal len ∧
    APIHelper.request env st this ro data
      = (st ++ [merged st this ro (base_headers (field st ro (lit "method")) len)],
         Normal o) ∧
    calls o = CRequest (chosen_transport st this ro)
                       (described st this ro first text len) :: rest.
Proof.
  intros Hbody Hpath Hu Hn Htext.
  destruct (path_supplied st ro path Hpath Hu Hn) as (Hro & Hfield & first & Hfirst).
  destruct (request_reaches_transport env st this ro data chunk first text)
    as (len & o & rest & Hlen & Hrequest & Hcalls); try done; try (by rewrite Hfield).
  by exists first, len, o, rest.
Qed.

(** X1. The method handed to the transport is always one of the five:
    the method of the options where that is one of the five strings,
    [GET] for any other value, a missing one included. *)
Theorem request_method_is_one_of_five env st this ro data chunk m path text :
  APIHelper.body data = Normal chunk →
  get st ro (lit "method") = Normal m →
  get st ro (lit "path") = Normal path →
  path ≠ Imm VUndefined → path ≠ Imm VNull →
  ToString env st path = Normal text →
  ∃ o t d rest,
    (APIHelper.request env st this ro data).2 = Normal o ∧
    calls o = CRequest t d :: rest ∧
    (∃ name, name ∈ APIHelper.METHODS ∧ d_method d = Imm (VStr name)) ∧
    (includes APIHelper.METHODS m = true → d_method d = m) ∧
    (includes APIHelper.METHODS m = false → d_method d = Imm (VStr (lit "GET"))).
Proof.
  intros Hbody Hm Hpath Hu Hn Htext.
  destruct (request_described env st this ro data chunk path text)
    as (first & len & o & rest & _ & Hrequest & Hcalls); try done.
  eexists o, _, _, rest. rewrite Hrequest. split; [done|]. split; [exact Hcalls|].
  cbn [described d_method]. rewrite (get_Normal_field _ _ _ _ Hm).
  destruct (includes APIHelper.METHODS m) eqn:Hin.
  - split_and!; [|done|done].
    destruct m as [[| | | | |s| |]|]; try discriminate. simpl in Hin.
    exists s. split; [|done]. by apply bool_decide_eq_true in Hin.
  - split_and!; [|done|done].
    exists (lit "GET"). split; [|done]. apply list_elem_of_here.
Qed.

Lemma request_method_is_one_of_five_witness :
  ∃ o t d rest,
    (APIHelper.request quiet bare.1 bare.2
       (Imm (VObj [(lit "method", VStr (lit "put"));
                   (lit "path", VStr (lit "/x"))])) VUndefined).2 = Normal o ∧
    calls o = CRequest t d :: rest ∧
    d_method d = Imm (VStr (lit "GET")).
Proof.
  destruct (request_method_is_one_of_five quiet bare.1 bare.2
              (Imm (VObj [(lit "method", VStr (lit "put"));
                          (lit "path", VStr (lit "/x"))])) VUndefined (VStr [])
              (Imm (VStr (lit "put"))) (Imm (VStr (lit "/x"))) (lit "/x")
              eq_refl eq_refl eq_refl)
    as (o & t & d & rest & Ho & Hcalls & _ & _ & Hother);
    [discriminate|discriminate|reflexivity|].
  exists o, t, d, rest. split; [exact Ho|]. split; [exact Hcalls|]. by apply Hother.
Defined.

(** X2. The host handed to the transport is the [hostname] of the
    options where that is truthy and the instance default otherwise;
    the port is the [port] of the options as it is, whatever the
    instance holds. *)
Theorem request_hostname_and_port env st this ro data chunk h dh port path text :
  APIHelper.body data = Normal chunk →
  get st ro (lit "hostname") = Normal h →
  get st (Ref (APIHelper.requestOptions this)) (lit "hostname") = Normal dh →
  get st ro (lit "port") = Normal port →
  get st ro (lit "path") = Normal path →
  path ≠ Imm VUndefined → path ≠ Imm VNull →
  ToString env st path = Normal text →
  ∃ o t d rest,
    (APIHelper.request env st this ro data).2 = Normal o ∧
    calls o = CRequest t d :: rest ∧
    d_hostname d = (if truthy h then h else dh) ∧
    d_port d = port.
Proof.
  intros Hbody Hh Hdh Hport Hpath Hu Hn Htext.
  destruct (request_described env st this ro data chunk path text)
    as (first & len & o & rest & _ & Hrequest & Hcalls); try done.
  eexists o, _, _, rest. rewrite Hrequest. split; [done|]. split; [exact Hcalls|].
  cbn [described d_hostname d_port].
  by rewrite (get_Normal_field _ _ _ _ Hh), (get_Normal_field _ _ _ _ Hdh),
    (get_Normal_field _ _ _ _ Hport).
Qed.

Lemma request_hostname_and_port_witness :
  ∃ o t d rest,
    (APIHelper.request quiet configured.1 configured.2
       (Imm (VObj [(lit "hostname", VStr []);
                   (lit "path", VStr (lit "/x"))])) VUndefined).2 = Normal o ∧
    calls o = CRequest t d :: rest ∧
    d_hostname d = Imm (VStr (lit "api.test")) ∧
    d_port d = Imm VUndefined.
Proof.
  apply (request_hostname_and_port quiet configured.1 configured.2
           (Imm (VObj [(lit "hostname", VStr []);
                       (lit "path", VStr (lit "/x"))])) VUndefined (VStr [])
           (Imm (VStr [])) (Imm (VStr (lit "api.test"))) (Imm VUndefined)
           (Imm (VStr (lit "/x"))) (lit "/x"));
    (reflexivity || discriminate).
Defined.

(** ** The header mapping of the instance *)

Lemma setHeader_update st this key v :
  key ≠ lit "__proto__" ∨ is_string [] v || is_undefined v = true →
  APIHelper.setHeader st this key v
  = Normal (alter (header_update key v) (APIHelper.headers this) st).
Proof.
  unfold APIHelper.setHeader, header_update, APIHelper.deleteHeader, put.
  intros [Hkey|Hv].
  - destruct (is_string [] v || is_undefined v); [done|].
    by rewrite bool_decide_eq_false_2.
  - by rewrite Hv.
Qed.

Lemma header_update_defines key (v : arg) :
  v ≠ Imm (VStr []) → v ≠ Imm VUndefined → header_update key v = define key v.
Proof.
  intros Hs Hu. unfold header_update.
  destruct v as [[| | | | |s| |]|]; try done.
  simpl. case_bool_decide; [by subst|done].
Qed.

(** X3. [setHeader(k, v)] with a value other than the empty string and
    [undefined], the falsy [null], [0] and [false] included, and a name
    other than [__proto__], stores [v] under [k] in the header mapping
    of the instance and throws nothing: reading [k] gives [v] back,
    every other header and the prototype are as before, every other
    object of the store is left as it was and no object is created. *)
Theorem setHeader_stores_the_value st this key v o :
  key ≠ lit "__proto__" →
  v ≠ Imm (VStr []) → v ≠ Imm VUndefined →
  st !! APIHelper.headers this = Some o →
  ∃ st',
    APIHelper.setHeader st this key v = Normal st' ∧
    st' !! APIHelper.headers this = Some (define key v o) ∧
    props (define key v o) !! key = Some v ∧
    (∀ k, k ≠ key → props (define key v o) !! k = props o !! k) ∧
    proto (define key v o) = proto o ∧
    (∀ l, l ≠ APIHelper.headers this → st' !! l = st !! l) ∧
    length st' = length st.
Proof.
  intros Hkey Hs Hu Ho. eexists. split.
  - rewrite setHeader_update by (by left). by rewrite header_update_defines.
  - split_and!.
    + by rewrite list_lookup_alter_eq, Ho.
    + apply lookup_insert_eq.
    + intros k Hk. simpl. by rewrite lookup_insert_ne.
    + done.
    + intros l Hl. by rewrite list_lookup_alter_ne.
    + apply length_alter.
Qed.

Lemma setHeader_stores_the_value_witness :
  ∃ st',
    APIHelper.setHeader configured.1 configured.2 (lit "Accept") (Imm VNull) = Normal st' ∧
    st' !! APIHelper.headers configured.2
      = Some (define (lit "Accept") (Imm VNull) configured_headers) ∧
    props (define (lit "Accept") (Imm VNull) configured_headers) !! lit "Accept"
      = Some (Imm VNull) ∧
    length st' = 2%nat.
Proof.
  destruct (setHeader_stores_the_value configured.1 configured.2 (lit "Accept")
              (Imm VNull) configured_headers)
    as (st' & Hset & Hnew & Hkey & _ & _ & _ & Hlength);
    [discriminate|discriminate|discriminate|reflexivity|].
  exists st'. split_and!; [exact Hset|exact Hnew|exact Hkey|exact Hlength].
Defined.

Lemma own_properties_alter (f : object → object) (g : mapping → mapping) l st :
  (∀ o, props (f o) = g (props o)) →
  own_properties (alter f l st) = alter g l (own_properties st).
Proof.
  intros Hfg. unfold own_properties. apply list_eq. intros i.
  rewrite list_lookup_fmap.
  destruct (decide (i = l)) as [->|Hi].
  - rewrite !list_lookup_alter_eq, list_lookup_fmap.
    destruct (st !! l); simpl; [by rewrite Hfg|done].
  - by rewrite !list_lookup_alter_ne, list_lookup_fmap.
Qed.

Lemma own_properties_write_proto st l a :
  own_properties (write_proto st l a) = own_properties st ∨
  own_properties (write_proto st l a)
  = alter (insert (lit "__proto__") a) l (own_properties st).
Proof.
  unfold write_proto. destruct (reaches_setter _ _ _).
  - left. destruct (as_prototype a); [|done].
    rewrite (own_properties_alter _ id) by done. apply list_alter_id. done.
  - right. by apply own_properties_alter.
Qed.

(** X4. Setting a header that the instance did not have and deleting it
    again gives back the own properties of every object of the store as
    they were, whatever the value set and whatever the name; for a name
    other than [__proto__], the call of [setHeader] throws nothing and
    the store is as it was. *)
Theorem setHeader_then_deleteHeader_restores st this key v o :
  st !! APIHelper.headers this = Some o →
  props o !! key = None →
  (∀ st', APIHelper.setHeader st this key v = Normal st' →
          own_properties (APIHelper.deleteHeader st' this key) = own_properties st) ∧
  (key ≠ lit "__proto__" →
   ∃ st', APIHelper.setHeader st this key v = Normal st' ∧
          APIHelper.deleteHeader st' this key = st).
Proof.
  intros Ho Hkey.
  assert (∀ g : mapping → mapping,
            (∀ x : mapping, x !! key = None → g x = x) →
            alter g (APIHelper.headers this) (own_properties st) = own_properties st)
    as Hid.
  { intros g Hg.
    transitivity (alter id (APIHelper.headers this) (own_properties st));
      [|by apply list_alter_id].
    apply list_alter_ext; [|done]. intros x Hx. apply Hg.
    unfold own_properties in Hx. rewrite list_lookup_fmap, Ho in Hx.
    by injection Hx as <-. }
  assert (∀ m : mapping → mapping,
            (∀ x : mapping, x !! key = None → delete key (m x) = x) →
            alter (delete key) (APIHelper.headers this)
              (alter m (APIHelper.headers this) (own_properties st))
            = own_properties st) as Hrestore.
  { intros m Hm. rewrite list_alter_alter_eq. by apply Hid. }
  split.
  - intros st'. unfold APIHelper.deleteHeader.
    rewrite (own_properties_alter _ (delete key)) by done.
    destruct (decide (key = lit "__proto__")) as [->|Hne];
      [|rewrite setHeader_update by (by left); intros [= <-];
        unfold header_update; destruct (_ || _);
        [rewrite (own_properties_alter _ (delete key)) by done;
         apply Hrestore; intros x Hx; by rewrite delete_delete_eq, delete_id
        |rewrite (own_properties_alter _ (insert key v)) by done;
         apply Hrestore; intros x Hx; by rewrite delete_insert_eq, delete_id]].
    unfold APIHelper.setHeader, put.
    destruct (is_string [] v || is_undefined v).
    + intros [= <-]. unfold APIHelper.deleteHeader.
      rewrite (own_properties_alter _ (delete (lit "__proto__"))) by done.
      apply Hrestore. intros x Hx. by rewrite delete_delete_eq, delete_id.
    + rewrite bool_decide_eq_true_2 by done.
      destruct (_ && _); [done|]. intros [= <-].
      destruct (own_properties_write_proto st (APIHelper.headers this) v) as [->| ->].
      * apply Hid. intros x Hx. by apply delete_id.
      * apply Hrestore. intros x Hx. by rewrite delete_insert_eq, delete_id.
  - intros Hne. eexists. split; [by apply setHeader_update; left|].
    unfold APIHelper.deleteHeader. rewrite list_alter_alter_eq.
    transitivity (alter id (APIHelper.headers this) st); [|by apply list_alter_id].
    apply list_alter_ext; [|done]. intros x Hx. rewrite Ho in Hx. injection Hx as <-.
    unfold header_update. destruct o as [m p]. simpl in *.
    destruct (_ || _); unfold remove, define; simpl; f_equal.
    + by rewrite delete_delete_eq, delete_id.
    + by rewrite delete_insert_eq, delete_id.
Qed.

Lemma setHeader_then_deleteHeader_restores_witness :
  ∃ st',
    APIHelper.setHeader configured.1 configured.2 (lit "Token") (Imm (VStr (lit "t")))
      = Normal st' ∧
    APIHelper.deleteHeader st' configured.2 (lit "Token") = configured.1.
Proof.
  apply (setHeader_then_deleteHeader_restores configured.1 configured.2 (lit "Token")
           (Imm (VStr (lit "t"))) configured_headers).
  - reflexivity.
  - reflexivity.
  - discriminate.
Defined.

(** X5. For a name other than [__proto__], the last [setHeader]
    decides: what an earlier [setHeader] for the same name did, set or
    delete, leaves no trace in the store. With the empty string or
    [undefined] as the later value this is [deleteHeader] after
    [setHeader]. *)
Theorem setHeader_last_wins st this key v1 v2 :
  key ≠ lit "__proto__" →
  ∃ st1,
    APIHelper.setHeader st this key v1 = Normal st1 ∧
    APIHelper.setHeader st1 this key v2 = APIHelper.setHeader st this key v2.
Proof.
  intros Hkey. eexists. split; [by apply setHeader_update; left|].
  rewrite !setHeader_update by (by left). f_equal.
  rewrite list_alter_alter_eq. apply list_alter_ext; [|done].
  intros [m p] _. unfold header_update.
  destruct (is_string [] v1 || is_undefined v1), (is_string [] v2 || is_undefined v2);
    unfold remove, define; simpl; f_equal.
  - apply delete_delete_eq.
  - apply insert_delete_eq.
  - apply delete_insert_eq.
  - apply insert_insert_eq.
Qed.

Lemma setHeader_last_wins_witness :
  ∃ st1,
    APIHelper.setHeader configured.1 configured.2 (lit "Accept") (Imm (VStr (lit "b")))
      = Normal st1 ∧
    APIHelper.setHeader st1 configured.2 (lit "Accept") (Imm (VStr []))
      = APIHelper.setHeader configured.1 configured.2 (lit "Accept") (Imm (VStr [])).
Proof.
  apply (setHeader_last_wins configured.1 configured.2 (lit "Accept")
           (Imm (VStr (lit "b"))) (Imm (VStr []))).
  discriminate.
Defined.

(** The walks along the prototype chains are the same in two stores
    whose objects have the same prototypes and the same names but
    [__proto__] apart. *)
Lemma header_update_prototype key v o :
  key ≠ lit "__proto__" →
  proto (header_update key v o) = proto o ∧
  props (header_update key v o) !! lit "__proto__" = props o !! lit "__proto__".
Proof.
  intros Hkey. unfold header_update.
  destruct (_ || _); simpl; (split; [done|]).
  - by rewrite lookup_delete_ne.
  - by rewrite lookup_insert_ne.
Qed.

Lemma reaches_setter_update n key v l st p :
  key ≠ lit "__proto__" →
  reaches_setter n (alter (header_update key v) l st) p = reaches_setter n st p.
Proof.
  intros Hkey. revert p. induction n as [|n IH]; intros p; [by destruct p|].
  destruct p as [| |u|l']; try done. simpl.
  destruct (decide (l' = l)) as [->|Hne].
  - rewrite list_lookup_alter_eq. destruct (st !! l) as [o|]; simpl; [|done].
    destruct (header_update_prototype key v o Hkey) as [-> ->].
    by rewrite IH.
  - rewrite list_lookup_alter_ne by done. destruct (st !! l') as [o|]; [|done].
    by rewrite IH.
Qed.

Lemma on_chain_update n key v l st p target :
  key ≠ lit "__proto__" →
  on_chain n (alter (header_update key v) l st) p target = on_chain n st p target.
Proof.
  intros Hkey. revert p. induction n as [|n IH]; intros p; [by destruct p|].
  destruct p as [| |u|l']; try done. simpl. f_equal.
  destruct (decide (l' = l)) as [->|Hne].
  - rewrite list_lookup_alter_eq. destruct (st !! l) as [o|]; simpl; [|done].
    destruct (header_update_prototype key v o Hkey) as [-> _].
    by rewrite IH.
  - rewrite list_lookup_alter_ne by done. destruct (st !! l') as [o|]; [|done].
    by rewrite IH.
Qed.

(** A property of another name can be written before or after
    [__proto__]. *)
Lemma write_proto_update key v l st a :
  key ≠ lit "__proto__" →
  write_proto (alter (header_update key v) l st) l a
  = alter (header_update key v) l (write_proto st l a).
Proof.
  intros Hkey. unfold write_proto.
  rewrite length_alter, reaches_setter_update by done.
  destruct (reaches_setter _ _ _).
  - destruct (as_prototype a) as [p|]; [|done].
    rewrite !list_alter_alter_eq. apply list_alter_ext; [|done].
    intros [m q] _. unfold header_update. by destruct (_ || _).
  - rewrite !list_alter_alter_eq. apply list_alter_ext; [|done].
    intros [m q] _. unfold header_update.
    destruct (_ || _); unfold remove, define; simpl; f_equal.
    + by rewrite delete_insert_ne.
    + by rewrite insert_insert_ne.
Qed.

Lemma header_update_commute k1 v1 k2 v2 o :
  k1 ≠ k2 →
  header_update k1 v1 (header_update k2 v2 o)
  = header_update k2 v2 (header_update k1 v1 o).
Proof.
  intros Hk. assert (k2 ≠ k1) as Hk' by done.
  destruct o as [m p]. unfold header_update.
  destruct (is_string [] v1 || is_undefined v1), (is_string [] v2 || is_undefined v2);
    unfold remove, define; simpl; f_equal.
  - apply delete_delete.
  - by apply delete_insert_ne.
  - symmetry. by apply delete_insert_ne.
  - by apply insert_insert_ne.
Qed.

(** [setHeader] for a name other than [__proto__], after or before
    another call. *)
Lemma setHeader_update_commute st this k1 v1 k2 v2 :
  k1 ≠ k2 → k2 ≠ lit "__proto__" →
  cbind (APIHelper.setHeader st this k1 v1)
        (λ st, APIHelper.setHeader st this k2 v2)
  = cbind (APIHelper.setHeader st this k2 v2)
          (λ st, APIHelper.setHeader st this k1 v1).
Proof.
  intros Hk Hk2.
  rewrite (setHeader_update st this k2 v2) by (by left). cbn [cbind].
  destruct (decide (k1 = lit "__proto__")) as [->|Hk1];
    [destruct (is_string [] v1 || is_undefined v1) eqn:Hv1|].
  - rewrite !(setHeader_update _ this (lit "__proto__") v1) by (by right).
    cbn [cbind]. rewrite (setHeader_update _ this k2 v2) by (by left). f_equal.
    rewrite !list_alter_alter_eq. apply list_alter_ext; [|done].
    intros o _. by apply header_update_commute.
  - unfold APIHelper.setHeader at 1 3. rewrite Hv1. unfold put.
    rewrite bool_decide_eq_true_2 by done.
    rewrite length_alter, reaches_setter_update by done.
    replace (match as_prototype v1 with
             | Some p => on_chain (length st)
                           (alter (header_update k2 v2) (APIHelper.headers this) st) p
                           (APIHelper.headers this)
             | None => false
             end)
      with (match as_prototype v1 with
            | Some p => on_chain (length st) st p (APIHelper.headers this)
            | None => false
            end)
      by (destruct (as_prototype v1); [by rewrite on_chain_update|done]).
    destruct (_ && _); [done|]. cbn [cbind].
    rewrite (setHeader_update _ this k2 v2) by (by left).
    by rewrite write_proto_update.
  - rewrite !(setHeader_update _ this k1 v1) by (by left).
    cbn [cbind]. rewrite (setHeader_update _ this k2 v2) by (by left). f_equal.
    rewrite !list_alter_alter_eq. apply list_alter_ext; [|done].
    intros o _. by apply header_update_commute.
Qed.

(** X6. Calls of [setHeader] for two different names can be made in
    either order, whether they set or delete: the two orders throw the
    same or leave the same store. *)
Theorem setHeader_keys_independent st this k1 v1 k2 v2 :
  k1 ≠ k2 →
  cbind (APIHelper.setHeader st this k1 v1)
        (λ st, APIHelper.setHeader st this k2 v2)
  = cbind (APIHelper.setHeader st this k2 v2)
          (λ st, APIHelper.setHeader st this k1 v1).
Proof.
  intros Hk. destruct (decide (k2 = lit "__proto__")) as [->|Hk2].
  - symmetry. by apply setHeader_update_commute.
  - by apply setHeader_update_commute.
Qed.

Lemma setHeader_keys_independent_witness :
  cbind (APIHelper.setHeader bare.1 bare.2 (lit "Accept") (Imm (VStr (lit "a"))))
        (λ st, APIHelper.setHeader st bare.2 (lit "__proto__") (Imm VNull))
  = cbind (APIHelper.setHeader bare.1 bare.2 (lit "__proto__") (Imm VNull))
          (λ st, APIHelper.setHeader st bare.2 (lit "Accept") (Imm (VStr (lit "a")))).
Proof.
  apply (setHeader_keys_independent bare.1 bare.2 (lit "Accept") (Imm (VStr (lit "a")))
           (lit "__proto__") (Imm VNull)).
  discriminate.
Defined.

(** ** Headers set on the instance, as a request sends them *)

Lemma chain_ends_alter n f l st p :
  (∀ o, proto (f o) = proto o) →
  chain_ends n (alter f l st) p = chain_ends n st p.
Proof.
  intros Hf. revert p. induction n as [|n IH]; intros p; [by destruct p|].
  destruct p as [| |u|l']; try done. simpl.
  destruct (decide (l' = l)) as [->|Hne].
  - rewrite list_lookup_alter_eq. destruct (st !! l) as [o|]; simpl; [|done].
    by rewrite Hf, IH.
  - rewrite list_lookup_alter_ne by done. destruct (st !! l') as [o|]; [|done].
    by rewrite IH.
Qed.

(** An update that keeps the prototypes keeps the arguments valid. *)
Lemma valid_alter f l st a :
  (∀ o, proto (f o) = proto o) → valid st a → valid (alter f l st) a.
Proof.
  intros Hf. destruct a as [v|l']; [done|]. unfold valid.
  by rewrite length_alter, chain_ends_alter.
Qed.

(** X7. A header set with [setHeader(k, v)], for a name other than
    [__proto__], goes out with the requests made afterwards: a request
    whose own [headers] have no entry for [k] hands the transport a
    header mapping in which [k] is [v]. For [Content-Length] this
    replaces the length [request] computes. *)
Theorem header_set_is_sent env st this ro data chunk key v inst hs path text :
  key ≠ lit "__proto__" →
  v ≠ Imm (VStr []) → v ≠ Imm VUndefined →
  valid st ro →
  st !! APIHelper.headers this = Some inst →
  APIHelper.body data = Normal chunk →
  ∃ st',
    APIHelper.setHeader st this key v = Normal st' ∧
    (get st' ro (lit "headers") = Normal hs →
     source_props st' hs !! key = None →
     get st' ro (lit "path") = Normal path →
     path ≠ Imm VUndefined → path ≠ Imm VNull →
     ToString env st' path = Normal text →
     ∃ o t d rest,
       (APIHelper.request env st' this ro data).2 = Normal o ∧
       calls o = CRequest t d :: rest ∧
       d_headers d !! key = Some v).
Proof.
  intros Hkey Hs Hu Hro Hinst Hbody. eexists. split.
  - rewrite setHeader_update by (by left). by rewrite header_update_defines.
  - set (st' := alter (define key v) (APIHelper.headers this) st).
    intros Hhs Hcall Hpath Hpu Hpn Htext.
    assert (valid st' ro) as Hro' by (by apply valid_alter).
    assert (st' !! APIHelper.headers this = Some (define key v inst)) as Hinst'
      by (unfold st'; by rewrite list_lookup_alter_eq, Hinst).
    destruct (request_described env st' this ro data chunk path text)
      as (first & len & o & rest & _ & Hrequest & Hcalls); try done.
    eexists o, _, _, rest. rewrite Hrequest. split; [done|]. split; [exact Hcalls|].
    cbn [described d_headers].
    rewrite (merged_lookup st' this ro _ (define key v inst)) by done.
    rewrite (get_Normal_field _ _ _ _ Hhs), Hcall. simpl.
    by rewrite lookup_insert_eq.
Qed.

Lemma header_set_is_sent_witness :
  ∃ st',
    APIHelper.setHeader configured.1 configured.2 (lit "Token") (Imm (VStr (lit "t")))
      = Normal st' ∧
    ∃ o t d rest,
      (APIHelper.request quiet st' configured.2
         (Imm (VObj [(lit "method", VStr (lit "POST"));
                     (lit "path", VStr (lit "/x"))])) (VStr (lit "abc"))).2
        = Normal o ∧
      calls o = CRequest t d :: rest ∧
      d_headers d !! lit "Token" = Some (Imm (VStr (lit "t"))).
Proof.
  destruct (header_set_is_sent quiet configured.1 configured.2
              (Imm (VObj [(lit "method", VStr (lit "POST"));
                          (lit "path", VStr (lit "/x"))])) (VStr (lit "abc"))
              (VStr (lit "abc")) (lit "Token") (Imm (VStr (lit "t")))
              configured_headers (Imm VUndefined) (Imm (VStr (lit "/x"))) (lit "/x"))
    as (st' & Hset & Hsent);
    [discriminate|discriminate|discriminate|exact I|reflexivity|reflexivity|].
  exists st'. split; [exact Hset|].
  apply Hsent; (reflexivity || discriminate).
Defined.

(** A copy from a source without [__proto__] has no such property
    unless the target had it. *)
Lemma assigned_without_proto st o source :
  source_props (st ++ [o]) source !! lit "__proto__" = None →
  props (assigned st o source) !! lit "__proto__" = props o !! lit "__proto__".
Proof.
  intros Hsource. unfold assigned, Object_assign. rewrite alter_fresh, Hsource.
  rewrite lookup_fresh. simpl.
  by rewrite lookup_union, lookup_delete_eq, (left_id None _).
Qed.

Lemma merged_without_proto st this ro base inst :
  valid st ro →
  st !! APIHelper.headers this = Some inst →
  source_props st (field st ro (lit "headers")) !! lit "__proto__" = None →
  props inst !! lit "__proto__" = None →
  base !! lit "__proto__" = None →
  props (merged st this ro base) !! lit "__proto__" = None.
Proof.
  intros Hro Hinst Hcall Hinstance Hbase. unfold merged.
  set (layer := assigned st (literal base) (Ref (APIHelper.headers this))).
  assert (props layer !! lit "__proto__" = None) as Hlayer.
  { unfold layer. rewrite assigned_without_proto; [done|]. simpl.
    by rewrite lookup_app_l, Hinst by (by eapply lookup_lt_Some). }
  rewrite assigned_without_proto; [done|]. rewrite field_alloc by done.
  destruct (field st ro (lit "headers")) as [v|l]; [done|].
  simpl in *. destruct (decide (l < length st)%nat) as [Hl|Hl].
  - by rewrite lookup_app_l.
  - destruct (decide (l = length st)) as [->|Hne].
    + by rewrite lookup_fresh.
    + by rewrite lookup_ge_None_2 by (rewrite length_app; simpl; lia).
Qed.

(** X8. A header deleted with [deleteHeader(k)] is no longer sent: a
    request made afterwards whose own [headers] have no entry for [k]
    hands the transport a header mapping without [k]. [Content-Length]
    is left aside, for which [request] has a value of its own. *)
Theorem header_deleted_is_not_sent env st this ro data key inst hs o t d rest :
  key ≠ lit "Content-Length" →
  valid st ro →
  st !! APIHelper.headers this = Some inst →
  let st' := APIHelper.deleteHeader st this key in
  get st' ro (lit "headers") = Normal hs →
  source_props st' hs !! key = None →
  (APIHelper.request env st' this ro data).2 = Normal o →
  calls o = CRequest t d :: rest →
  d_headers d !! key = None.
Proof.
  intros Hcl Hro Hinst st' Hhs Hkey Ho Hcalls.
  assert (valid st' ro) as Hro' by (by apply valid_alter).
  assert (st' !! APIHelper.headers this = Some (remove key inst)) as Hinst'
    by (unfold st', APIHelper.deleteHeader; by rewrite list_lookup_alter_eq, Hinst).
  destruct (request_first_call _ _ _ _ _ _ _ _ _ Ho Hcalls)
    as (chunk & first & text & len & _ & _ & _ & _ & _ & _ & -> & _).
  cbn [described d_headers].
  assert (base_headers (field st' ro (lit "method")) len !! key = None) as Hbase.
  { unfold base_headers. destruct (is_string _ _); [done|].
    by apply lookup_singleton_ne. }
  destruct (decide (key = lit "__proto__")) as [->|Hne].
  - apply (merged_without_proto st' this ro _ (remove (lit "__proto__") inst));
      try done.
    + by rewrite (get_Normal_field _ _ _ _ Hhs).
    + apply lookup_delete_eq.
  - rewrite (merged_lookup st' this ro _ (remove key inst)) by done.
    rewrite (get_Normal_field _ _ _ _ Hhs), Hkey. simpl.
    by rewrite lookup_delete_eq.
Qed.

Lemma header_deleted_is_not_sent_witness :
  ∃ o t d rest,
    (APIHelper.request quiet
       (APIHelper.deleteHeader configured.1 configured.2 (lit "Accept"))
       configured.2
       (Imm (VObj [(lit "path", VStr (lit "/x"))])) VUndefined).2 = Normal o ∧
    calls o = CRequest t d :: rest ∧
    d_headers d !! lit "Accept" = None.
Proof.
  pose (st' := APIHelper.deleteHeader configured.1 configured.2 (lit "Accept")).
  pose (ro := Imm (VObj [(lit "path", VStr (lit "/x"))])).
  destruct (request_reaches_transport quiet st' configured.2 ro VUndefined (VStr [])
              (Imm (VStr (lit "/"))) (lit "/x") eq_refl I eq_refl eq_refl)
    as (len & o & rest & _ & Hrequest & Hcalls).
  pose proof (f_equal snd Hrequest) as Ho. cbn [snd] in Ho.
  eexists o, _, _, rest. split; [exact Ho|]. split; [exact Hcalls|].
  apply (header_deleted_is_not_sent quiet configured.1 configured.2 ro VUndefined
           (lit "Accept") configured_headers (Imm VUndefined) o
           (chosen_transport st' configured.2 ro)
           (described st' configured.2 ro (Imm (VStr (lit "/"))) (lit "/x") len) rest);
    [discriminate|exact I|reflexivity|reflexivity|reflexivity|exact Ho|exact Hcalls].
Defined.

(** ** A string as data *)

(** X9. With a method that is not the string [GET] and a transport that
    accepts the calls, data that is a string, or is left out and so the
    empty string, is written as it is, in one chunk between the request
    and its end. Unless the instance or the call set [Content-Length],
    the header is the number of code units of the string, which is
    never more than the number of bytes written. *)
Theorem request_sends_string_as_is env st this ro data s inst hs m path text :
  APIHelper.default_data data = VStr s →
  valid st ro →
  st !! APIHelper.headers this = Some inst →
  (∀ c, throws env c = None) →
  get st ro (lit "method") = Normal m → is_string (lit "GET") m = false →
  get st ro (lit "headers") = Normal hs →
  source_props st hs !! lit "Content-Length" = None →
  props inst !! lit "Content-Length" = None →
  get st ro (lit "path") = Normal path →
  path ≠ Imm VUndefined → path ≠ Imm VNull →
  ToString env st path = Normal text →
  ∃ o t d,
    (APIHelper.request env st this ro data).2 = Normal o ∧
    calls o = [CRequest t d; CWrite (VStr s); CEnd] ∧
    d_headers d !! lit "Content-Length" = Some (Imm (VNum (Z.of_nat (length s)))) ∧
    (length s ≤ byte_length s)%nat.
Proof.
  intros Hdata Hro Hinst Hquiet Hm Hget Hhs Hcall Hinstance Hpath Hu Hn Htext.
  assert (APIHelper.body data = Normal (VStr s)) as Hbody
    by (unfold APIHelper.body; by rewrite Hdata).
  destruct (path_supplied st ro path Hpath Hu Hn) as (Hread & Hfield & first & Hfirst).
  apply get_Normal_field in Hm, Hhs.
  eexists _, _, _.
  rewrite (request_issued env st this ro data (VStr s) first text
             (VNum (Z.of_nat (length s))))
    by (by rewrite ?Hfield, ?string_length).
  cbn [snd]. split; [done|]. cbn [calls]. rewrite attempt_accepted by done.
  cbn [fst]. unfold planned. rewrite field_alloc, Hm, Hget by done.
  split_and!; [done| |apply length_le_byte_length].
  cbn [described d_headers].
  rewrite (merged_lookup st this ro _ inst) by done.
  rewrite Hhs, Hcall, Hinstance, Hm. unfold base_headers. rewrite Hget.
  by rewrite lookup_singleton_eq.
Qed.

Lemma request_sends_string_as_is_witness :
  ∃ o t d,
    (APIHelper.request quiet bare.1 bare.2
       (Imm (VObj [(lit "method", VStr (lit "PUT"));
                   (lit "path", VStr (lit "/x"))])) (VStr [0xE9; 0x21])).2 = Normal o ∧
    calls o = [CRequest t d; CWrite (VStr [0xE9; 0x21]); CEnd] ∧
    d_headers d !! lit "Content-Length" = Some (Imm (VNum 2)) ∧
    (2 ≤ byte_length [0xE9%N; 0x21%N])%nat.
Proof.
  apply (request_sends_string_as_is quiet bare.1 bare.2
           (Imm (VObj [(lit "method", VStr (lit "PUT"));
                       (lit "path", VStr (lit "/x"))])) (VStr [0xE9; 0x21])
           [0xE9; 0x21] (literal ∅) (Imm VUndefined) (Imm (VStr (lit "PUT")))
           (Imm (VStr (lit "/x"))) (lit "/x"));
    (reflexivity || discriminate || exact I).
Defined.

(** ** Exceptions of the transport *)



(** ** The events of a request *)

Lemma try_block_more_events env more this ro data :
  APIHelper.try_block (more_events env more) this ro data
  = APIHelper.try_block env this ro data.
Proof. reflexivity. Qed.

Lemma deliver_more_events env more evs :
  deliver (more_events env more) evs = deliver env evs.
Proof. reflexivity. Qed.

(** X11. A promise settles once. When the events of a request have
    settled its promise, resolved or rejected, whatever the transport
    reports afterwards changes nothing: the calls, the store and the
    promise are those of the request without the later events. The
    same holds of a call that throws, which returns no promise. *)
Theorem settled_promise_ignores_later_events env more st this ro data :
  (∀ o, (APIHelper.request env st this ro data).2 = Normal o → result o ≠ Pending) →
  APIHelper.request (more_events env more) st this ro data
  = APIHelper.request env st this ro data.
Proof.
  unfold APIHelper.request. destruct (APIHelper.body data) as [chunk|e]; [|done].
  rewrite try_block_more_events.
  destruct (APIHelper.try_block env this ro chunk _) as [[[]|e] w]; [|done].
  cbn [snd]. intros Hsettled. specialize (Hsettled _ eq_refl).
  cbn [result] in Hsettled. do 3 f_equal.
  rewrite deliver_more_events. cbn [events more_events].
  unfold deliver in *. rewrite foldl_app. by apply settled_for_good.
Qed.

Lemma settled_promise_ignores_later_events_witness :
  APIHelper.request
    (more_events (answering [lit "ok"]) [StreamError (VStr (lit "late")); End])
    bare.1 bare.2 (Imm (VObj [(lit "path", VStr (lit "/x"))])) VUndefined
  = APIHelper.request (answering [lit "ok"])
      bare.1 bare.2 (Imm (VObj [(lit "path", VStr (lit "/x"))])) VUndefined.
Proof.
  apply (settled_promise_ignores_later_events (answering [lit "ok"])
           [StreamError (VStr (lit "late")); End] bare.1 bare.2
           (Imm (VObj [(lit "path", VStr (lit "/x"))])) VUndefined).
  intros o Ho. vm_compute in Ho. injection Ho as <-. discriminate.
Defined.

Lemma resolved_by_end env evs l v :
  settled (foldl (on_event env) l evs) = Resolved v →
  settled l = Resolved v ∨
  ∃ pre post, evs = pre ++ End :: post ∧ (update l ≠ None ∨ Response ∈ pre).
Proof.
  revert l. induction evs as [|ev evs IH]; intros l Hres; [by left|].
  simpl in Hres. apply IH in Hres as [Hstep|(pre & post & -> & Hopen)].
  - destruct l as [p u]. simpl in *.
    destruct ev, u as [u|], p; simpl in Hstep;
      try (destruct (to_string u); simpl in Hstep);
      try discriminate; try (left; congruence);
      right; exists [], evs; (split; [done|]); by left.
  - right. exists (ev :: pre), post. split; [done|].
    destruct Hopen as [Hopen|Hopen]; [|right; by apply list_elem_of_further].
    destruct l as [p u]. simpl in *.
    destruct ev, u as [u|]; simpl in Hopen; try (by left); try done.
    right. apply list_elem_of_here.
Qed.

(** X12. The promise is resolved by the end of the response alone: a
    resolved promise means that the transport reported the response and,
    later, its end. Chunks of data without an end leave the promise
    pending, however many arrive, and an end reported before any
    response resolves nothing. *)
Theorem resolution_needs_the_end env st this ro data o v :
  (APIHelper.request env st this ro data).2 = Normal o →
  result o = Resolved v →
  ∃ pre post, events env = pre ++ End :: post ∧ Response ∈ pre.
Proof.
  intros Ho.
  apply request_returns in Ho
    as [(chunk & _ & _ & ->)|(chunk & first & text & len & _ & _ & _ & _ & _ & _ & ->)];
    [done|].
  cbn [result]. destruct (attempt env _).2; [|done].
  cbn [settlement]. unfold deliver. intros Hres.
  apply resolved_by_end in Hres as [Hres|(pre & post & Hevs & [Hopen|Hopen])];
    [done|done|]. by exists pre, post.
Qed.

Lemma resolution_needs_the_end_witness :
  ∃ pre post,
    events (answering [lit "o"; lit "k"]) = pre ++ End :: post ∧ Response ∈ pre.
Proof.
  assert (∃ o, (APIHelper.request (answering [lit "o"; lit "k"]) bare.1 bare.2
                  (Imm (VObj [(lit "path", VStr (lit "/x"))])) VUndefined).2 = Normal o ∧
               result o = Resolved (VStr (lit "ok"))) as (o & Ho & Hresult).
  { eexists. split.
    - vm_compute. reflexivity.
    - vm_compute. reflexivity. }
  apply (resolution_needs_the_end (answering [lit "o"; lit "k"]) bare.1 bare.2
           (Imm (VObj [(lit "path", VStr (lit "/x"))])) VUndefined o (VStr (lit "ok"))
           Ho Hresult).
Defined.

Lemma deliver_failed env chunks e rest :
  deliver env (ReqError e :: rest) = Rejected (Thrown e) ∧
  deliver env (Response :: (Data <$> chunks) ++ ReqError e :: rest)
    = Rejected (Thrown e) ∧
  deliver env (Response :: (Data <$> chunks) ++ StreamError e :: rest)
    = Rejected (Thrown e).
Proof.
  unfold deliver. split_and!.
  - cbn [foldl on_event update settled settle]. by rewrite settled_for_good.
  - cbn [foldl on_event update settled]. rewrite foldl_app, data_accumulates.
    cbn [foldl on_event update settled settle]. by rewrite settled_for_good.
  - cbn [foldl on_event update settled]. rewrite foldl_app, data_accumulates.
    cbn [foldl on_event update settled settle]. by rewrite settled_for_good.
Qed.

(** X13. An error reported before the end of the response rejects the
    promise with the value of the error, and the chunks received until
    then are dropped: so for an error of the request before any
    response, and for an error of the request or of the response stream
    after some chunks, whatever is reported afterwards, an end
    included. *)
Theorem error_event_rejects env st this ro data chunk path text chunks e rest :
  APIHelper.body data = Normal chunk →
  (∀ c, throws env c = None) →
  get st ro (lit "path") = Normal path →
  path ≠ Imm VUndefined → path ≠ Imm VNull →
  ToString env st path = Normal text →
  events env = ReqError e :: rest ∨
  events env = Response :: (Data <$> chunks) ++ ReqError e :: rest ∨
  events env = Response :: (Data <$> chunks) ++ StreamError e :: rest →
  ∃ o, (APIHelper.request env st this ro data).2 = Normal o ∧
       result o = Rejected (Thrown e).
Proof.
  intros Hbody Hquiet Hpath Hu Hn Htext Hevents.
  destruct (request_accepted env st this ro data chunk path text)
    as (o & Ho & Hresult); try done.
  exists o. split; [done|]. rewrite Hresult.
  destruct (deliver_failed env chunks e rest) as (Hreq & Hlate & Hstream).
  by destruct Hevents as [->|[->| ->]].
Qed.

Lemma error_event_rejects_witness :
  ∃ o,
    (APIHelper.request
       (reporting [Response; Data (lit "par"); StreamError (VStr (lit "reset")); End])
       bare.1 bare.2 (Imm (VObj [(lit "path", VStr (lit "/x"))])) VUndefined).2
      = Normal o ∧
    result o = Rejected (Thrown (VStr (lit "reset"))).
Proof.
  apply (error_event_rejects
           (reporting [Response; Data (lit "par"); StreamError (VStr (lit "reset")); End])
           bare.1 bare.2 (Imm (VObj [(lit "path", VStr (lit "/x"))])) VUndefined
           (VStr []) (Imm (VStr (lit "/x"))) (lit "/x") [lit "par"]
           (VStr (lit "reset")) [End]);
    [reflexivity|reflexivity|reflexivity|discriminate|discriminate|reflexivity|].
  right. right. reflexivity.
Defined.

(** ** The calls of a request *)

(** X14. Whatever the arguments and whatever the transport does, a call
    of [request] that returns has made no call at all on the transport,
    or one request first, followed by at most one write, of the body,
    and at most one end, after which nothing is called. *)
Theorem request_calls_in_order env st this ro data o :
  (APIHelper.request env st this ro data).2 = Normal o →
  ∃ chunk,
    APIHelper.body data = Normal chunk ∧
    (calls o = [] ∨
     ∃ t d rest,
       calls o = CRequest t d :: rest ∧
       (rest `prefix_of` [CWrite chunk; CEnd] ∨ rest `prefix_of` [CEnd])).
Proof.
  intros Ho.
  apply request_returns in Ho
    as [(chunk & Hbody & _ & ->)
       |(chunk & first & text & len & Hbody & _ & _ & _ & _ & _ & ->)];
    exists chunk; (split; [done|]); [by left|].
  cbn [calls]. right.
  set (st' := st ++ [merged st this ro (base_headers (field st ro (lit "method")) len)]).
  pose proof (attempt_prefix env
                (planned (chosen_transport st this ro)
                   (described st this ro first text len)
                   (field st' ro (lit "method")) chunk)) as Hprefix.
  destruct (attempt_first env
              (CRequest (chosen_transport st this ro)
                        (described st this ro first text len))
              ((if is_string (lit "GET") (field st' ro (lit "method"))
                then [] else [CWrite chunk]) ++ [CEnd]))
    as [rest Hrest].
  unfold planned in Hprefix |- *. rewrite Hrest in Hprefix |- *.
  apply prefix_cons_inv_2 in Hprefix.
  eexists _, _, rest. split; [done|].
  destruct (is_string _ _); [by right|by left].
Qed.

Lemma request_calls_in_order_witness :
  ∃ o t d rest,
    (APIHelper.request quiet bare.1 bare.2
       (Imm (VObj [(lit "method", VStr (lit "POST"));
                   (lit "path", VStr (lit "/x"))]))
       (VArr [VNum 1000000000000000000000; VNum (-7)])).2 = Normal o ∧
    calls o = CRequest t d :: rest ∧
    (rest `prefix_of` [CWrite (VStr (lit "[1e+21,-7]")); CEnd]
     ∨ rest `prefix_of` [CEnd]).
Proof.
  assert (∃ o, (APIHelper.request quiet bare.1 bare.2
                  (Imm (VObj [(lit "method", VStr (lit "POST"));
                              (lit "path", VStr (lit "/x"))]))
                  (VArr [VNum 1000000000000000000000; VNum (-7)])).2 = Normal o ∧
               calls o ≠ []) as (o & Ho & Hmade).
  { eexists. split.
    - vm_compute. reflexivity.
    - vm_compute. discriminate. }
  destruct (request_calls_in_order quiet bare.1 bare.2
              (Imm (VObj [(lit "method", VStr (lit "POST"));
                          (lit "path", VStr (lit "/x"))]))
              (VArr [VNum 1000000000000000000000; VNum (-7)]) o Ho)
    as (chunk & Hbody & [Hnone|(t & d & rest & Hcalls & Hrest)]); [done|].
  vm_compute in Hbody. injection Hbody as <-.
  by exists o, t, d, rest.
Defined.

(** ** Options that cannot be read *)

(** X15. With [undefined] or [null] for the options, [request] and the
    five wrappers call nothing on the transport. Where the data has a
    body to send, they return a promise rejected with a [TypeError]:
    in [request] the first property read fails, and a wrapper passes
    on an object that holds its method alone, which has no path. Where
    [JSON.stringify] throws, the exception leaves the call. *)
Theorem missing_options_reject env st this ro data :
  ¬ readable ro →
  (∀ chunk, APIHelper.body data = Normal chunk →
     APIHelper.request env st this ro data
       = (st, Normal {| calls := []; result := Rejected TypeError |}) ∧
     ∀ name f, (name, f) ∈ wrappers →
       (f env st this ro data).2
       = Normal {| calls := []; result := Rejected TypeError |}) ∧
  (∀ e, APIHelper.body data = Throw e →
     APIHelper.request env st this ro data = (st, Throw e) ∧
     ∀ name f, (name, f) ∈ wrappers → (f env st this ro data).2 = Throw e).
Proof.
  intros Hro.
  assert (∀ name, assigned st (literal {[ lit "method" := Imm (VStr (lit name)) ]}) ro
                  = literal {[ lit "method" := Imm (VStr (lit name)) ]}) as Hobject.
  { intros name. rewrite assigned_literal by done.
    assert (∀ st', source_props st' ro = ∅) as ->.
    { intros st'. destruct ro as [v|l]; [|simpl in Hro; tauto].
      destruct v; simpl in Hro; try tauto; done. }
    rewrite delete_empty, lookup_empty.
    by rewrite (map_empty_union ({[lit "method" := Imm (VStr (lit name))]} : mapping)). }
  split.
  - intros chunk Hbody. split; [by eapply request_unreadable|].
    intros name f Hf.
    rewrite (wrappers_with_method _ _ Hf), with_method_delegates, Hobject.
    rewrite (request_no_path _ _ _ _ _ chunk TypeError); [done|done|done|].
    unfold field at 1. simpl.
    rewrite length_app. simpl. replace (length st + 1)%nat with (S (length st)) by lia.
    simpl. rewrite lookup_fresh. simpl. rewrite lookup_singleton_ne by done.
    by destruct (length st).
  - intros e Hbody. split; [by apply request_throws|].
    intros name f Hf.
    rewrite (wrappers_with_method _ _ Hf), with_method_delegates.
    by rewrite (request_throws _ _ _ _ _ e Hbody).
Qed.

Lemma missing_options_reject_witness :
  APIHelper.request quiet configured.1 configured.2 (Imm VNull) (VStr (lit "abc"))
    = (configured.1, Normal {| calls := []; result := Rejected TypeError |}) ∧
  (APIHelper.POST quiet configured.1 configured.2 (Imm VNull) (VStr (lit "abc"))).2
    = Normal {| calls := []; result := Rejected TypeError |}.
Proof.
  destruct (proj1 (missing_options_reject quiet configured.1 configured.2 (Imm VNull)
                     (VStr (lit "abc")) (λ H, H)) (VStr (lit "abc")) eq_refl)
    as [Hrequest Hwrappers].
  split; [exact Hrequest|].
  apply (Hwrappers "POST"%string). unfold wrappers.
  apply list_elem_of_further, list_elem_of_here.
Defined.

(** ** The defaults of an instance *)

(** What is read from an object of the store: its own property, else
    what its prototype gives. *)
Lemma field_lookup st l o k :
  st !! l = Some o →
  field st (Ref l) k
  = match props o !! k with
    | Some a => a
    | None => inherited (pred (length st)) st (proto o) k
    end.
Proof.
  intros Hl. unfold field, get. destruct (length st) as [|n] eqn:Hn.
  - apply lookup_lt_Some in Hl. lia.
  - simpl. by rewrite Hl.
Qed.

(** X16. The defaults a request falls back to are those the instance
    was constructed with. For an options object that has no own
    property [__proto__], and that the caller keeps: after any change
    of any object that existed at the construction, a request whose own
    [hostname] and [protocol] are falsy, whose path has a string and
    whose data has a body is handed to the transport with the value
    the own [hostname] of the object had at the construction, over
    HTTPS exactly when its own [protocol] then was the string
    [https]. The value is the same; where it is an object, it is that
    object, with the contents it has by then. *)
Theorem defaults_fixed_at_construction
    env st o hd l change ro data chunk h p path text :
  valid st (Ref o) → valid st hd → (l < length st)%nat →
  source_props st (Ref o) !! lit "__proto__" = None →
  let st' := alter change l (APIHelper.constructor st (Ref o) hd).1 in
  let this := (APIHelper.constructor st (Ref o) hd).2 in
  APIHelper.body data = Normal chunk →
  get st' ro (lit "hostname") = Normal h → truthy h = false →
  get st' ro (lit "protocol") = Normal p → truthy p = false →
  get st' ro (lit "path") = Normal path →
  path ≠ Imm VUndefined → path ≠ Imm VNull →
  ToString env st' path = Normal text →
  ∃ out t d rest,
    (APIHelper.request env st' this ro data).2 = Normal out ∧
    calls out = CRequest t d :: rest ∧
    d_hostname d
      = default (Imm VUndefined) (source_props st (Ref o) !! lit "hostname") ∧
    t = if is_string (lit "https")
             (default (Imm VUndefined) (source_props st (Ref o) !! lit "protocol"))
        then HTTPS else HTTP.
Proof.
  intros Ho Hhd Hl Hproto st' this Hbody Hh Hhf Hp Hpf Hpath Hu Hn Htext.
  subst st' this. rewrite constructor_allocates in * by done. cbn [fst snd] in *.
  set (this := {| APIHelper.headers := length st;
                  APIHelper.requestOptions := S (length st) |}).
  set (st' := alter change l (st ++ [copy st hd; copy st (Ref o)])) in *.
  assert (∀ k, k ≠ lit "__proto__" →
               field st' (Ref (APIHelper.requestOptions this)) k
               = default (Imm VUndefined) (source_props st (Ref o) !! k))
    as Hdefaults.
  { intros k Hk. rewrite (field_lookup st' _ (copy st (Ref o))).
    - unfold copy at 1 2. cbn [props proto]. rewrite Hproto.
      rewrite lookup_delete_ne by done.
      destruct (source_props st (Ref o) !! k); [done|].
      by destruct (pred (length st')).
    - unfold st'. cbn [APIHelper.requestOptions this].
      rewrite list_lookup_alter_ne by lia.
      change (st ++ [copy st hd; copy st (Ref o)])
        with (st ++ [copy st hd] ++ [copy st (Ref o)]).
      rewrite app_assoc.
      replace (S (length st)) with (length (st ++ [copy st hd]))
        by (rewrite length_app; simpl; lia).
      apply lookup_fresh. }
  destruct (path_supplied st' ro path Hpath Hu Hn) as (Hread & Hfield & first & Hfirst).
  destruct (request_reaches_transport env st' this ro data chunk first text)
    as (len & out & rest & _ & Hrequest & Hcalls); [done|done| | |].
  { by rewrite Hfield. }
  { by rewrite Hfield. }
  exists out. eexists _, _, rest. rewrite Hrequest. split; [done|].
  split; [exact Hcalls|].
  unfold chosen_transport. cbn [described d_hostname].
  rewrite (get_Normal_field st' ro _ _ Hh), (get_Normal_field st' ro _ _ Hp).
  by rewrite Hhf, Hpf, !Hdefaults.
Qed.

Lemma defaults_fixed_at_construction_witness :
  let made := APIHelper.constructor caller_store (Ref 1) (Ref 0) in
  ∃ out t d rest,
    (APIHelper.request quiet
       (alter (define (lit "protocol") (Imm (VStr (lit "http")))) 1%nat made.1) made.2
       (Imm (VObj [(lit "path", VStr (lit "/x"))])) VUndefined).2 = Normal out ∧
    calls out = CRequest t d :: rest ∧
    d_hostname d = Imm VUndefined ∧
    t = HTTPS.
Proof.
  apply (defaults_fixed_at_construction quiet caller_store 1 (Ref 0) 1
           (define (lit "protocol") (Imm (VStr (lit "http"))))
           (Imm (VObj [(lit "path", VStr (lit "/x"))])) VUndefined (VStr [])
           (Imm VUndefined) (Imm VUndefined) (Imm (VStr (lit "/x"))) (lit "/x"));
    (reflexivity || discriminate || (simpl; lia)).
Defined.

(** ** The wrappers *)

(** X17. A [method] among the own properties of the options of a
    wrapper replaces the wrapper's own: for options with a path of
    their own that has a string, and data that has a body, the request
    handed to the transport carries the method of the options where
    that is one of the five, and [GET] where it is any other value,
    under each of the five wrappers. *)
Theorem wrapper_method_from_options name f env st this ro data chunk path text m :
  (name, f) ∈ wrappers →
  valid st ro →
  APIHelper.body data = Normal chunk →
  source_props st ro !! lit "method" = Some m →
  source_props st ro !! lit "path" = Some path →
  path ≠ Imm VUndefined → path ≠ Imm VNull →
  (∀ st', ToString env st' path = Normal text) →
  ∃ o, (f env st this ro data).2 = Normal o ∧
       method_sent o
       = Some (if includes APIHelper.METHODS m then m else Imm (VStr (lit "GET"))).
Proof.
  intros Hf Hro Hbody Hm Hpath Hu Hn Htext.
  destruct (wrapper_method_sent name f env st this ro data chunk path text)
    as (o & Ho & Hsent); try done.
  exists o. split; [done|]. by rewrite Hsent, Hm.
Qed.

Lemma wrapper_method_from_options_witness :
  ∃ o,
    (APIHelper.PUT quiet bare.1 bare.2
       (Imm (VObj [(lit "method", VStr (lit "put"));
                   (lit "path", VStr (lit "/x"))])) (VStr (lit "abc"))).2 = Normal o ∧
    method_sent o = Some (Imm (VStr (lit "GET"))).
Proof.
  apply (wrapper_method_from_options "PUT" APIHelper.PUT quiet bare.1 bare.2
           (Imm (VObj [(lit "method", VStr (lit "put"));
                       (lit "path", VStr (lit "/x"))])) (VStr (lit "abc"))
           (VStr (lit "abc")) (Imm (VStr (lit "/x"))) (lit "/x")
           (Imm (VStr (lit "put"))));
    [|exact I|reflexivity|reflexivity|reflexivity|discriminate|discriminate
     |reflexivity].
  unfold wrappers. do 3 apply list_elem_of_further. apply list_elem_of_here.
Defined.

(** X18. Called with options that have a path of their own, with a
    string, and no method of their own, on a transport that accepts
    the calls and with data that has a body, [GET] makes the request
    and ends it, writing nothing whatever the data, and each of
    [POST], [PATCH], [PUT] and [DELETE] writes the body once before
    the end: the data as it is, its JSON text for a value of type
    object, the empty string when there is none. *)
Theorem wrapper_writes_the_body name f env st this ro data chunk path text :
  (name, f) ∈ wrappers →
  valid st ro →
  (∀ c, throws env c = None) →
  APIHelper.body data = Normal chunk →
  source_props st ro !! lit "method" = None →
  source_props st ro !! lit "path" = Some path →
  path ≠ Imm VUndefined → path ≠ Imm VNull →
  (∀ st', ToString env st' path = Normal text) →
  ∃ o t d,
    (f env st this ro data).2 = Normal o ∧
    calls o
    = CRequest t d
        :: (if bool_decide (name = "GET"%string) then [] else [CWrite chunk]) ++ [CEnd].
Proof.
  intros Hf Hro Hquiet Hbody Hm Hpath Hu Hn Htext.
  rewrite (wrappers_with_method _ _ Hf), with_method_delegates.
  set (object := assigned st (literal {[ lit "method" := Imm (VStr (lit name)) ]}) ro).
  assert (props object !! lit "path" = Some path) as Hown.
  { unfold object. by rewrite wrapper_object_lookup, Hpath by done. }
  assert (props object !! lit "method" = Some (Imm (VStr (lit name)))) as Hmethod.
  { unfold object. rewrite wrapper_object_lookup, Hm by done.
    apply lookup_singleton_eq. }
  assert (∀ ext k a, props object !! k = Some a →
                     field ((st ++ [object]) ++ ext) (Ref (length st)) k = a)
    as Hobject.
  { intros ext k a Hk. rewrite (field_lookup _ _ object), Hk; [done|].
    rewrite lookup_app_l by (rewrite length_app; simpl; lia).
    apply lookup_fresh. }
  assert (field (st ++ [object]) (Ref (length st)) (lit "path") = path) as Hfield.
  { by apply field_fresh. }
  destruct (body_length data chunk Hbody) as [len Hlen].
  rewrite (request_issued env (st ++ [object]) this (Ref (length st)) data chunk
             (field (st ++ [object]) path (lit "0")) text len);
    [|done|done| |by rewrite Hfield|done].
  - cbn [snd]. eexists _, _, _. split; [done|]. cbn [calls].
    rewrite attempt_accepted by done. cbn [fst]. unfold planned.
    rewrite (Hobject _ _ _ Hmethod).
    by rewrite (wrapper_is_GET name f Hf).
  - rewrite Hfield. apply get_field. by apply readable_defined.
Qed.

Lemma wrapper_writes_the_body_witness :
  ∃ o t d,
    (APIHelper.DELETE quiet bare.1 bare.2
       (Imm (VObj [(lit "path", VStr (lit "/x"))]))
       (VArr [VNum 1000000000000000000000; VNum (-7)])).2 = Normal o ∧
    calls o = [CRequest t d; CWrite (VStr (lit "[1e+21,-7]")); CEnd].
Proof.
  apply (wrapper_writes_the_body "DELETE" APIHelper.DELETE quiet bare.1 bare.2
           (Imm (VObj [(lit "path", VStr (lit "/x"))]))
           (VArr [VNum 1000000000000000000000; VNum (-7)])
           (VStr (lit "[1e+21,-7]")) (Imm (VStr (lit "/x"))) (lit "/x"));
    [|exact I|reflexivity|vm_compute; reflexivity|reflexivity|reflexivity
     |discriminate|discriminate|reflexivity].
  unfold wrappers. do 4 apply list_elem_of_further. apply list_elem_of_here.
Defined.
